(** * The command palette of the web app

    A shallow embedding of
    [apps/web/src/dialogs/command-palette/command-palette-dialog.tsx]:
    the query classifier, the recent-commands cache kept in the
    persistent configuration, the resolution of the command registry,
    the grouping of the displayed list and the keyboard navigation. *)

From Stdlib Require Import ZArith NArith Ascii.
From stdpp Require Import base numbers option list strings functions gmap.

Local Open Scope Z_scope.

(** ** JavaScript values used by the dialog *)

(** A string is its sequence of UTF-16 code units; [===] on two strings
    is equality of these sequences. *)
Abbreviation jsstring := (list N).

Module JS.

(** The code units of a string literal of the source. *)
Definition str (s : string) : jsstring :=
  map N_of_ascii (String.list_ascii_of_string s).

(** How an evaluation ends. The only exception the dialog's own code can
    raise is the one of reading a property of [undefined]. *)
Inductive completion (A : Type) : Type :=
| Normal (a : A)
| TypeError.
Global Arguments Normal {A} a.
Global Arguments TypeError {A}.

(** [a[i]] for an integral number [i]: [undefined] outside of the array. *)
Definition index {A : Type} (a : list A) (i : Z) : option A :=
  if decide (0 ≤ i) then a !! Z.to_nat i else None.

(** [a.find(p)] *)
Definition find {A : Type} (p : A → bool) (a : list A) : option A :=
  snd <$> list_find (λ c, p c = true) a.

(** [a.findIndex(p)] *)
Definition findIndex {A : Type} (p : A → bool) (a : list A) : Z :=
  match list_find (λ c, p c = true) a with
  | Some (i, _) => Z.of_nat i
  | None => -1
  end.

(** [a.splice(start, 1)] for [start >= 0], as the array it leaves. *)
Definition splice1 {A : Type} (a : list A) (start : Z) : list A :=
  delete (Z.to_nat start) a.

(** [s.startsWith(p)] *)
Definition startsWith (s p : jsstring) : bool :=
  bool_decide (take (length p) s = p).

(** [s.substring(start)] for a natural number [start]. *)
Definition substring (s : jsstring) (start : nat) : jsstring :=
  drop start s.

(** The code units [String.prototype.trim] strips: WhiteSpace and
    LineTerminator of ECMA-262. *)
Definition isWhiteSpace (c : N) : bool :=
  (bool_decide (c ∈ [9; 10; 11; 12; 13; 32; 160; 5760; 8232; 8233;
                      8239; 8287; 12288; 65279])
   || ((8192 <=? c) && (c <=? 8202)))%N.

Fixpoint trimStart (s : jsstring) : jsstring :=
  match s with
  | c :: s' => if isWhiteSpace c then trimStart s' else s
  | [] => []
  end.

Definition trimEnd (s : jsstring) : jsstring :=
  reverse (trimStart (reverse s)).

(** [s.trim()] *)
Definition trim (s : jsstring) : jsstring := trimEnd (trimStart s).

End JS.
Export JS.

(** ** Commands *)

Module Cmd.

(** The values of the field [type]: ["command"], ["command-dynamic"],
    ["note"], ["notebook"], ["tag"] and ["reminder"]. *)
Inductive CommandType : Type :=
| Tcommand | Tcommand_dynamic | Tnote | Tnotebook | Ttag | Treminder.

Global Instance CommandType_eq_dec : EqDecision CommandType.
Proof. solve_decision. Defined.

Record Command : Type := {
  id : jsstring;
  title : jsstring;
  highlightedTitle : option jsstring;
  type : CommandType;
  group : jsstring
}.

Global Instance Command_eq_dec : EqDecision Command.
Proof. solve_decision. Defined.

(** The reserved group of the entries of the recent-commands cache. *)
Definition recent : jsstring := str "recent".

End Cmd.
Import Cmd.

(** ** Query classification *)

Module Query.

Definition isCommandMode (query : jsstring) : bool :=
  startsWith query (str ">").

Definition prepareQuery (query : jsstring) : jsstring :=
  if isCommandMode query then trim (substring query 1) else trim query.

(** The two modes of the palette. *)
Inductive Mode : Type := CommandMode | SearchMode.

(** The classification of a raw input as [search] makes it: the mode is
    read off [isCommandMode] and the prepared query is [prepareQuery]. *)
Definition classify (raw : jsstring) : Mode * jsstring :=
  (if isCommandMode raw then CommandMode else SearchMode, prepareQuery raw).

(** The sentinel character [>]. *)
Definition sentinel : N := 62.

(** A string of whitespace only. *)
Definition whitespace (s : jsstring) : Prop :=
  Forall (λ c, isWhiteSpace c = true) s.

(** A string with no whitespace at either end. *)
Definition trimmed (s : jsstring) : Prop :=
  (∀ c, head s = Some c → isWhiteSpace c = false) ∧
  (∀ c, last s = Some c → isWhiteSpace c = false).

(** [p] is [s] without the whitespace that surrounds it. *)
Definition isTrimOf (p s : jsstring) : Prop :=
  ∃ pre post, s = pre ++ p ++ post ∧ whitespace pre ∧ whitespace post ∧
              trimmed p.

End Query.

(** ** The persistent configuration and the recent-commands cache *)

Module Recent.

(** Modelled from the spec: the persistent key-value store [Config] of
    [utils/config], which is outside of this file. [get(key, default)]
    yields the stored value, or [default] when there is none; [set(key,
    value)] stores a serialised copy, so that a value read back shares
    nothing with the one written. Only lists of commands are stored by
    the dialog. *)
Definition Config_get (config : gmap jsstring (list Command))
    (key : jsstring) (default : list Command) : list Command :=
  match config !! key with
  | Some value => value
  | None => default
  end.

Definition Config_set (config : gmap jsstring (list Command))
    (key : jsstring) (value : list Command) : gmap jsstring (list Command) :=
  <[key := value]> config.

Definition recentKey : jsstring := str "commandPalette:recent".

Definition getRecentCommands (config : gmap jsstring (list Command))
  : list Command :=
  Config_get config recentKey [].

(** [{ ...command, highlightedTitle: undefined, group: "recent" }] *)
Definition recentEntry (command : Command) : Command :=
  {| id := id command; title := title command;
     highlightedTitle := None; type := type command;
     group := recent |}.

Definition addRecentCommand (command : Command)
    (config : gmap jsstring (list Command)) : gmap jsstring (list Command) :=
  if decide (type command = Tcommand_dynamic) then config
  else
    let commands := getRecentCommands config in
    let index := findIndex (λ c, bool_decide (id c = id command)) commands in
    let commands :=
      if decide (index > -1) then splice1 commands index else commands in
    let commands := recentEntry command :: commands in
    let commands :=
      if decide (Z.of_nat (length commands) > 3) then take 3 commands
      else commands in
    Config_set config recentKey commands.

Definition removeRecentCommand (id : jsstring)
    (config : gmap jsstring (list Command)) : gmap jsstring (list Command) :=
  let commands := getRecentCommands config in
  let index := findIndex (λ c, bool_decide (Cmd.id c = id)) commands in
  if decide (index > -1) then
    Config_set config recentKey (splice1 commands index)
  else config.

(** An array without its first entry of a given id: what the pair of
    [findIndex] and [splice] of both operations leaves of it. *)
Fixpoint dropFirst (i : jsstring) (l : list Command) : list Command :=
  match l with
  | [] => []
  | c :: l' => if decide (id c = i) then l' else c :: dropFirst i l'
  end.

(** A call of one of the two operations that write the cache. *)
Inductive CacheOp : Type :=
| Add (command : Command)
| Remove (id : jsstring).

Definition applyOp (config : gmap jsstring (list Command)) (op : CacheOp)
  : gmap jsstring (list Command) :=
  match op with
  | Add command => addRecentCommand command config
  | Remove id => removeRecentCommand id config
  end.

Definition applyOps (ops : list CacheOp)
    (config : gmap jsstring (list Command)) : gmap jsstring (list Command) :=
  foldl applyOp config ops.





End Recent.

(** ** The command registry and its resolution *)

Module Registry.

(** A field of a registry entry that is either a value or a function
    computing it when the registry is resolved. *)
Inductive Resolvable (A : Type) : Type :=
| Value (a : A)
| Function (f : unit → A).
Global Arguments Value {A} a.
Global Arguments Function {A} f.

(** [typeof v === "function" ? v() : v] *)
Definition resolve {A : Type} (v : Resolvable A) : A :=
  match v with
  | Value a => a
  | Function f => f ()
  end.

(** An entry of [COMMANDS] of [./commands], as far as the dialog reads
    it; [None] stands for [undefined]. The icon and the action of an
    entry are looked up by its id only. *)
Record Entry : Type := {
  id : jsstring;
  title : Resolvable (option jsstring);
  group : Resolvable (option jsstring);
  hidden : option (unit → bool);
  dynamic : bool
}.

(** The body of the reduction of [resolveCommands]. *)
Definition resolveStep (acc : list Command) (command : Entry) : list Command :=
  match find (λ c, bool_decide (Cmd.id c = id command)) acc with
  | Some _ => acc
  | None =>
      let hidden :=
        match hidden command with Some f => f () | None => false end in
      let group := resolve (group command) in
      let title := resolve (title command) in
      match group, title with
      | Some group, Some title =>
          if hidden then acc
          else acc ++ [ {| Cmd.id := id command;
                           Cmd.title := title;
                           Cmd.highlightedTitle := None;
                           Cmd.type := if dynamic command
                                       then Tcommand_dynamic else Tcommand;
                           Cmd.group := group |} ]
      | _, _ => acc
      end
  end.

Definition resolveCommands (COMMANDS : list Entry) : list Command :=
  foldl resolveStep [] COMMANDS.

Definition getDefaultCommands (COMMANDS : list Entry)
    (config : gmap jsstring (list Command)) : list Command :=
  Recent.getRecentCommands config ++ resolveCommands COMMANDS.

(** Modelled from the spec: the matching of [fuzzy] of the core package
    in its match-only mode, which is outside of this file. A candidate matches
    when the code units of the query occur in its title in order, not
    necessarily next to each other; the candidates that do not match are
    dropped and the others are ordered by descending match quality,
    those of equal quality keeping their order; with an empty query every
    candidate matches and the input order is kept. The measure of match
    quality is left open by the spec and is the parameter [quality]. *)
Fixpoint isSubsequence (query text : jsstring) : bool :=
  match text with
  | [] => bool_decide (query = [])
  | b :: text' =>
      match query with
      | [] => true
      | a :: query' =>
          if decide (a = b) then isSubsequence query' text'
          else isSubsequence query text'
      end
  end.

(** Modelled from the spec: the ordering step of [fuzzy], which is
    outside of this file. [c] goes before the first command that is not
    of better quality, so that equal qualities keep the input order. *)
Fixpoint insertByQuality (q : Command → nat) (c : Command)
    (l : list Command) : list Command :=
  match l with
  | [] => [c]
  | d :: l' =>
      if (q d <=? q c)%nat then c :: l else d :: insertByQuality q c l'
  end.

(** Modelled from the spec: [fuzzy(query, items, "title", { matchOnly:
    true })] of the core package, which is outside of this file, as
    described above. *)
Definition fuzzy (quality : jsstring → jsstring → nat) (query : jsstring)
    (items : list Command) : list Command :=
  match query with
  | [] => items
  | _ =>
      foldr (insertByQuality (λ c, quality query (Cmd.title c))) []
        (List.filter (λ c, isSubsequence query (Cmd.title c)) items)
  end.

Definition commandSearch (quality : jsstring → jsstring → nat)
    (COMMANDS : list Entry) (config : gmap jsstring (list Command))
    (query : jsstring) : list Command :=
  let commands := getDefaultCommands COMMANDS config in
  fuzzy quality query commands.

(** What [resolveStep] keeps of an entry when the entry's id is not
    taken yet: nothing, when the entry is hidden or has no group or no
    title. *)
Definition resolveEntry (command : Entry) : option Command :=
  match resolve (group command), resolve (title command) with
  | Some g, Some t =>
      if match hidden command with Some f => f () | None => false end
      then None
      else Some {| Cmd.id := id command; Cmd.title := t;
                   Cmd.highlightedTitle := None;
                   Cmd.type := if dynamic command
                               then Tcommand_dynamic else Tcommand;
                   Cmd.group := g |}
  | _, _ => None
  end.

(** Deduplication by id in which the first occurrence wins. *)
Fixpoint dedupById (seen : list jsstring) (l : list Command) : list Command :=
  match l with
  | [] => []
  | c :: l' =>
      if decide (Cmd.id c ∈ seen) then dedupById seen l'
      else c :: dedupById (Cmd.id c :: seen) l'
  end.

End Registry.

(** ** Grouping of the displayed list *)

Module Grouping.

(** An element of [GroupedCommands]. *)
Record GroupCount : Type := { group : jsstring; count : nat }.

Global Instance GroupCount_eq_dec : EqDecision GroupCount.
Proof. solve_decision. Defined.

(** The body of the reduction of [grouped]: [item.count++] updates the
    element found inside of [acc]. *)
Definition groupStep (acc : list GroupCount) (command : Command)
  : list GroupCount :=
  match list_find (λ c, group c = Cmd.group command) acc with
  | Some (i, _) =>
      alter (λ item, {| group := group item; count := S (count item) |}) i acc
  | None => acc ++ [ {| group := Cmd.group command; count := 1 |} ]
  end.

Definition grouped (commands : list Command) : list GroupCount :=
  foldl groupStep [] commands.

(** An element of [sortedWrtGroups]: an array that is created with one
    command and only ever grows, as its first command and the others. *)
Definition bucket : Type := Command * list Command.

Definition bucketItems (b : bucket) : list Command := b.1 :: b.2.

(** The body of the loop of [sortCommands], on the pair of [recent] and
    [sortedWrtGroups]. *)
Definition sortStep (st : list Command * list bucket) (command : Command)
  : list Command * list bucket :=
  let group := Cmd.group command in
  if decide (group = recent) then (st.1 ++ [command], st.2)
  else
    let index :=
      findIndex (λ c : bucket, bool_decide (Cmd.group c.1 = group)) st.2 in
    if decide (index = -1) then (st.1, st.2 ++ [(command, [])])
    else (st.1,
          alter (λ c : bucket, (c.1, c.2 ++ [command])) (Z.to_nat index) st.2).

Definition sortCommands (commands : list Command) : list Command :=
  let st := foldl sortStep ([], []) commands in
  st.1 ++ concat (bucketItems <$> st.2).

(** Run-length encoding of a sequence of labels, after the spec's
    description of the group summary. *)
Fixpoint rle (labels : list jsstring) : list GroupCount :=
  match labels with
  | [] => []
  | g :: labels' =>
      match rle labels' with
      | r :: rs =>
          if decide (group r = g)
          then {| group := g; count := S (count r) |} :: rs
          else {| group := g; count := 1 |} :: r :: rs
      | [] => [ {| group := g; count := 1 |} ]
      end
  end.

(** Replaying a summary: each label as often as its count says. *)
Definition replay (summary : list GroupCount) : list jsstring :=
  concat ((λ r, replicate (count r) (group r)) <$> summary).

(** What the loop of [sortCommands] keeps true of [recent] and
    [sortedWrtGroups]: [recent] holds commands of the reserved group
    only, every bucket holds commands of one other group, and no two
    buckets hold the same group. *)
Definition wellBucketed (st : list Command * list bucket) : Prop :=
  Forall (λ c, Cmd.group c = recent) st.1 ∧
  Forall (λ b : bucket,
            Cmd.group b.1 ≠ recent ∧
            Forall (λ c, Cmd.group c = Cmd.group b.1) b.2) st.2 ∧
  NoDup ((λ b : bucket, Cmd.group b.1) <$> st.2).

(** The summary read off the state of the loop. *)
Definition stateSummary (st : list Command * list bucket) : list GroupCount :=
  match st.1 with
  | [] => []
  | _ => [ {| group := recent; count := length st.1 |} ]
  end ++
  ((λ b : bucket, {| group := Cmd.group b.1; count := S (length b.2) |})
     <$> st.2).

End Grouping.

(** ** Keyboard navigation *)

Module Coords.

Record t : Type := { x : Z; y : Z }.

Global Instance eq_dec : EqDecision t.
Proof. solve_decision. Defined.

End Coords.

Module Nav.

(** Reading [currentCommand.group] raises a [TypeError] when there is no
    command at [selected.y]. When there is one the list is not empty, so
    that the remainder [%] is the one of integers; the operands met here
    are not negative, and [Z.rem] rounds like [%] does. The second
    operand of [&&] is evaluated only if the first one holds. *)
Definition moveSelectionDown (selected : Coords.t) (commands : list Command)
  : completion Coords.t :=
  match index commands (Coords.y selected) with
  | None => TypeError
  | Some currentCommand =>
      let nextIndex :=
        Z.rem (Coords.y selected + 1) (Z.of_nat (length commands)) in
      if decide (group currentCommand = recent) then
        match index commands nextIndex with
        | None => TypeError
        | Some nextCommand =>
            if decide (group nextCommand = recent)
            then Normal {| Coords.x := Coords.x selected; Coords.y := nextIndex |}
            else Normal {| Coords.x := 0; Coords.y := nextIndex |}
        end
      else Normal {| Coords.x := 0; Coords.y := nextIndex |}
  end.

Definition moveSelectionUp (selected : Coords.t) (commands : list Command)
  : completion Coords.t :=
  match index commands (Coords.y selected) with
  | None => TypeError
  | Some currentCommand =>
      let nextIndex :=
        Z.rem (Coords.y selected - 1 + Z.of_nat (length commands))
              (Z.of_nat (length commands)) in
      if decide (group currentCommand = recent) then
        match index commands nextIndex with
        | None => TypeError
        | Some nextCommand =>
            if decide (group nextCommand = recent)
            then Normal {| Coords.x := Coords.x selected; Coords.y := nextIndex |}
            else Normal {| Coords.x := 0; Coords.y := nextIndex |}
        end
      else Normal {| Coords.x := 0; Coords.y := nextIndex |}
  end.

Definition moveSelectionRight (selected : Coords.t) (commands : list Command)
  : completion Coords.t :=
  match index commands (Coords.y selected) with
  | None => TypeError
  | Some currentCommand =>
      if decide (group currentCommand ≠ recent) then Normal selected
      else
        let nextIndex := Z.rem (Coords.x selected + 1) 2 in
        Normal {| Coords.x := nextIndex; Coords.y := Coords.y selected |}
  end.

Definition moveSelectionLeft (selected : Coords.t) (commands : list Command)
  : completion Coords.t :=
  match index commands (Coords.y selected) with
  | None => TypeError
  | Some currentCommand =>
      if decide (group currentCommand ≠ recent) then Normal selected
      else
        let nextIndex := Z.rem (Coords.x selected - 1 + 2) 2 in
        Normal {| Coords.x := nextIndex; Coords.y := Coords.y selected |}
  end.

(** What invoking the action of a command asks of the rest of the
    application. *)
Inductive Action : Type :=
| RegistryAction (id : jsstring)
| OpenSession (noteId : jsstring)
| NavigateNotebook (notebookId : jsstring)
| NavigateTag (tagId : jsstring)
| EditReminder (reminderId : jsstring).

(** [CommandActionMap] has an action for the ids of [COMMANDS] only. *)
Definition getCommandAction (COMMANDS : list Registry.Entry)
    (id : jsstring) (type : CommandType) : option (jsstring → Action) :=
  match type with
  | Tcommand | Tcommand_dynamic =>
      if decide (id ∈ Registry.id <$> COMMANDS)
      then Some (λ _, RegistryAction id) else None
  | Tnote => Some OpenSession
  | Tnotebook => Some NavigateNotebook
  | Ttag => Some NavigateTag
  | Treminder => Some EditReminder
  end.

(** The state the key handler of the dialog reads and writes. Arrays
    live in [heap], at the addresses below [next]; [commands] is the
    address of the array held by the state variable of that name.
    [closed] counts the calls of [props.onClose] and [invoked] lists the
    actions invoked, latest first. *)
Record Dialog : Type := {
  heap : nat → list Command;
  next : nat;
  commands : nat;
  selected : Coords.t;
  config : gmap jsstring (list Command);
  closed : nat;
  invoked : list Action
}.

Definition setSelected (s : Coords.t) (d : Dialog) : Dialog :=
  {| heap := heap d; next := next d; commands := commands d;
     selected := s; config := config d; closed := closed d;
     invoked := invoked d |}.

Definition setConfig (c : gmap jsstring (list Command)) (d : Dialog) : Dialog :=
  {| heap := heap d; next := next d; commands := commands d;
     selected := selected d; config := c; closed := closed d;
     invoked := invoked d |}.

(** [setCommands] with an array that was just created: the array gets
    the next free address of the heap. *)
Definition setCommandsNew (a : list Command) (d : Dialog) : Dialog :=
  {| heap := <[next d := a]> (heap d); next := S (next d);
     commands := next d;
     selected := selected d; config := config d; closed := closed d;
     invoked := invoked d |}.

Definition invoke (a : option Action) (d : Dialog) : Dialog :=
  {| heap := heap d; next := next d; commands := commands d;
     selected := selected d; config := config d; closed := closed d;
     invoked := match a with Some a => a :: invoked d | None => invoked d end |}.

Definition onClose (d : Dialog) : Dialog :=
  {| heap := heap d; next := next d; commands := commands d;
     selected := selected d; config := config d; closed := S (closed d);
     invoked := invoked d |}.

Inductive Key : Type :=
| Enter | ArrowDown | ArrowUp | ArrowRight | ArrowLeft | OtherKey.

Definition origin : Coords.t := {| Coords.x := 0; Coords.y := 0 |}.

(** The handler of [onKeyDown]. [filter] creates a new array. *)
Definition onKeyDown (COMMANDS : list Registry.Entry) (key : Key)
    (d : Dialog) : completion Dialog :=
  let commands := heap d (commands d) in
  let selected := selected d in
  match key with
  | Enter =>
      match index commands (Coords.y selected) with
      | None => Normal d
      | Some command =>
          if decide (Coords.x selected = 1) then
            let d := setSelected origin d in
            let d :=
              setConfig (Recent.removeRecentCommand (id command) (config d)) d in
            Normal
              (setCommandsNew
                 (filter (λ c, id c ≠ id command) commands) d)
          else
            let action := getCommandAction COMMANDS (id command) (type command) in
            let d := invoke ((λ f, f (id command)) <$> action) d in
            let d := setConfig (Recent.addRecentCommand command (config d)) d in
            let d := onClose d in
            Normal (setSelected origin d)
      end
  | ArrowDown =>
      match moveSelectionDown selected commands with
      | Normal s => Normal (setSelected s d)
      | TypeError => TypeError
      end
  | ArrowUp =>
      match moveSelectionUp selected commands with
      | Normal s => Normal (setSelected s d)
      | TypeError => TypeError
      end
  | ArrowRight =>
      match moveSelectionRight selected commands with
      | Normal s => Normal (setSelected s d)
      | TypeError => TypeError
      end
  | ArrowLeft =>
      match moveSelectionLeft selected commands with
      | Normal s => Normal (setSelected s d)
      | TypeError => TypeError
      end
  | OtherKey => Normal d
  end.

End Nav.

(** ** Sample data *)

Module Samples.

Definition mk (i t g : string) (ty : CommandType) : Command :=
  {| id := str i; title := str t; highlightedTitle := None;
     type := ty; group := str g |}.

Definition noteX : Command := mk "x" "T" "Notes" Tnote.
Definition noteY : Command := mk "y" "U" "Notes" Tnote.
Definition noteZ : Command := mk "z" "V" "Notes" Tnote.
Definition tagW : Command := mk "w" "W" "Tags" Ttag.

(** A command of the registry, and the same command once the registry
    marks it as dynamic. *)
Definition commandX : Command := mk "x" "T" "Editor" Tcommand.
Definition dynamicX : Command := mk "x" "T" "Editor" Tcommand_dynamic.

Definition entry (i t g : string) (h : option (unit → bool)) (dyn : bool)
  : Registry.Entry :=
  {| Registry.id := str i;
     Registry.title := Registry.Value (Some (str t));
     Registry.group := Registry.Function (λ _, Some (str g));
     Registry.hidden := h; Registry.dynamic := dyn |}.

(** A registry of five visible entries and a hidden one. *)
Definition registry6 : list Registry.Entry :=
  [ entry "a" "Toggle theme" "Theme" None false;
    entry "b" "Focus mode" "View" (Some (λ _, false)) false;
    entry "h" "Sign out" "Account" (Some (λ _, true)) false;
    entry "c" "Next tab" "View" None true;
    entry "d" "New note" "Create" None false;
    entry "e" "New tag" "Create" None false ].

(** The first entry of an id is hidden and a later one is not. *)
Definition registryShadowed : list Registry.Entry :=
  [ entry "a" "Sign in" "Account" (Some (λ _, true)) false;
    entry "b" "Focus mode" "View" None false;
    entry "a" "Sign out" "Account" None false ].

(** The measure of match quality that rates every match alike. *)
Definition flat (query text : jsstring) : nat := 0.

(** The first command of [registry6] once it was chosen. *)
Definition chosenA : Command := mk "a" "Toggle theme" "Theme" Tcommand.

(** The list of the scenario of the spec: two recent commands and a note. *)
Definition recentA : Command := mk "a" "First" "recent" Tcommand.
Definition recentB : Command := mk "b" "Second" "recent" Tnote.
Definition noteC : Command := mk "c" "Third" "notes" Tnote.
Definition scenarioList : list Command := [recentA; recentB; noteC].

(** A dialog that shows [recentA], its registry command and a note, with
    the cursor on the remove button of the first row. *)
Definition dialogOnRemove : Nav.Dialog :=
  {| Nav.heap := λ a, match a with
                      | O => [recentA; chosenA; noteC]
                      | _ => []
                      end;
     Nav.next := 1;
     Nav.commands := 0;
     Nav.selected := {| Coords.x := 1; Coords.y := 0 |};
     Nav.config := Recent.applyOps [Recent.Add noteC; Recent.Add chosenA] ∅;
     Nav.closed := 0;
     Nav.invoked := [] |}.

End Samples.

(** ** The lookup maps, the search and the pointer *)

Module Maps.

(** [COMMANDS.reduce((acc, command) => { acc.set(command.id, field);
    return acc; }, new Map())], the reduction that builds both
    [CommandIconMap] and [CommandActionMap]. The field of the entry that
    is stored, which [Registry.Entry] leaves out, is the parameter
    [field]. *)
Definition idMap {A : Type} (field : Registry.Entry → A)
    (COMMANDS : list Registry.Entry) : gmap jsstring A :=
  foldl (λ acc command, <[Registry.id command := field command]> acc)
        ∅ COMMANDS.

Definition CommandIconMap {I : Type} (icon : Registry.Entry → I)
    (COMMANDS : list Registry.Entry) : gmap jsstring I :=
  idMap icon COMMANDS.

Definition CommandActionMap {A : Type} (action : Registry.Entry → A)
    (COMMANDS : list Registry.Entry) : gmap jsstring A :=
  idMap action COMMANDS.

(** What [getCommandIcon] returns: an icon of the registry, or one of
    the four icons of the entities. *)
Inductive IconOf (I : Type) : Type :=
| RegistryIcon (icon : I)
| NoteIcon
| NotebookIcon
| TagIcon
| ReminderIcon.
Global Arguments RegistryIcon {I} icon.
Global Arguments NoteIcon {I}.
Global Arguments NotebookIcon {I}.
Global Arguments TagIcon {I}.
Global Arguments ReminderIcon {I}.

Definition getCommandIcon {I : Type} (icon : Registry.Entry → I)
    (COMMANDS : list Registry.Entry) (id : jsstring) (type : CommandType)
  : option (IconOf I) :=
  match type with
  | Tcommand | Tcommand_dynamic =>
      RegistryIcon <$> (CommandIconMap icon COMMANDS !! id)
  | Tnote => Some NoteIcon
  | Tnotebook => Some NotebookIcon
  | Ttag => Some TagIcon
  | Treminder => Some ReminderIcon
  end.

(** The last entry of an id in the registry. *)
Definition lastEntry (COMMANDS : list Registry.Entry) (i : jsstring)
  : option Registry.Entry :=
  last (filter (λ e, Registry.id e = i) COMMANDS).

End Maps.

Module Search.

(** A session of the editor store, as far as the dialog reads it:
    [session.note.title] is read of the sessions whose type is not
    ["new"] only. *)
Record Session : Type := {
  id : jsstring;
  note_title : jsstring;
  type : jsstring
}.

(** [noteLabel] is [strings.dataTypesCamelCase.note()]. *)
Definition getSessionsAsCommands (noteLabel : jsstring)
    (sessions : list Session) : list Command :=
  (λ session,
     {| Cmd.id := id session; Cmd.title := note_title session;
        Cmd.highlightedTitle := None; Cmd.type := Tnote;
        Cmd.group := noteLabel |})
  <$> filter (λ s, type s ≠ str "new") sessions.

(** The types of the items of the database: ["note"], ["notebook"],
    ["tag"] and ["reminder"]. *)
Inductive ItemType : Type := Inote | Inotebook | Itag | Ireminder.

(** The type of an item is a type of commands as it is. *)
Definition commandType (t : ItemType) : CommandType :=
  match t with
  | Inote => Tnote
  | Inotebook => Tnotebook
  | Itag => Ttag
  | Ireminder => Treminder
  end.

Record Item : Type := {
  item_id : jsstring;
  item_title : jsstring;
  item_type : ItemType
}.

(** The four lookups of [db.lookup], each with the items it yields for a
    query. *)
Record Lookup : Type := {
  notes : jsstring → list Item;
  notebooks : jsstring → list Item;
  tags : jsstring → list Item;
  reminders : jsstring → list Item
}.

(** [dataTypesCamelCase] is the table of labels of that name of
    [strings]. [Promise.all] keeps the order of its arguments. *)
Definition dbSearch (dataTypesCamelCase : ItemType → jsstring)
    (db : Lookup) (query : jsstring) : list Command :=
  let list :=
    concat [notes db query; notebooks db query; tags db query;
            reminders db query] in
  (λ item,
     {| Cmd.id := item_id item; Cmd.title := item_title item;
        Cmd.highlightedTitle := None;
        Cmd.type := commandType (item_type item);
        Cmd.group := dataTypesCamelCase (item_type item) |})
  <$> list.

Definition search (quality : jsstring → jsstring → nat)
    (COMMANDS : list Registry.Entry) (config : gmap jsstring (list Command))
    (dataTypesCamelCase : ItemType → jsstring) (sessions : list Session)
    (db : Lookup) (query : jsstring) : list Command :=
  let prepared := Query.prepareQuery query in
  if Query.isCommandMode query then
    Registry.commandSearch quality COMMANDS config prepared
  else if decide (Z.of_nat (length prepared) < 1) then
    getSessionsAsCommands (dataTypesCamelCase Inote) sessions
  else dbSearch dataTypesCamelCase db prepared.

End Search.

Module Pointer.
Import Nav.

(** [onClick] of the button of the command of row [index]. The row has
    no button when there is no command at [index]. *)
Definition onClickCommand (COMMANDS : list Registry.Entry) (index : nat)
    (d : Dialog) : option Dialog :=
  match heap d (commands d) !! index with
  | None => None
  | Some command =>
      let action := getCommandAction COMMANDS (id command) (type command) in
      let d := invoke ((λ f, f (id command)) <$> action) d in
      let d := setConfig (Recent.addRecentCommand command (config d)) d in
      Some (onClose d)
  end.

(** [onClick] of the button that removes the command of row [index] from
    the recent commands. Only the rows of the group ["recent"] have this
    button. *)
Definition onClickRemove (index : nat) (d : Dialog) : option Dialog :=
  match heap d (commands d) !! index with
  | None => None
  | Some command =>
      if decide (group command = recent) then
        let list := heap d (commands d) in
        let d :=
          setConfig (Recent.removeRecentCommand (id command) (config d)) d in
        Some (setCommandsNew (filter (λ c, id c ≠ id command) list) d)
      else None
  end.

(** A cursor that is on a row of the list and, when it is on the button
    that removes a recent command, on a row of the group ["recent"]. *)
Definition validCursor (commands : list Command) (s : Coords.t) : Prop :=
  0 ≤ Coords.y s < Z.of_nat (length commands) ∧
  (Coords.x s = 0 ∨
   (Coords.x s = 1 ∧
    ∃ c, index commands (Coords.y s) = Some c ∧ group c = recent)).

End Pointer.

(** ** More sample data *)

Module MoreSamples.
Import Samples.

Definition sessionOpen : Search.Session :=
  {| Search.id := str "n1"; Search.note_title := str "Plan";
     Search.type := str "default" |}.

Definition sessionNew : Search.Session :=
  {| Search.id := str "n2"; Search.note_title := [];
     Search.type := str "new" |}.

Definition labels (t : Search.ItemType) : jsstring :=
  match t with
  | Search.Inote => str "note"
  | Search.Inotebook => str "notebook"
  | Search.Itag => str "tag"
  | Search.Ireminder => str "reminder"
  end.

(** A database that knows one note and one tag, whatever the query. *)
Definition smallDb : Search.Lookup :=
  {| Search.notes := λ _, [ {| Search.item_id := str "n1";
                               Search.item_title := str "Plan";
                               Search.item_type := Search.Inote |} ];
     Search.notebooks := λ _, [];
     Search.tags := λ _, [ {| Search.item_id := str "t1";
                              Search.item_title := str "work";
                              Search.item_type := Search.Itag |} ];
     Search.reminders := λ _, [] |}.

(** A dialog that shows the list of the scenario, with the cursor on its
    last row. *)
Definition dialogOnLastRow : Nav.Dialog :=
  {| Nav.heap := λ a, match a with
                      | O => scenarioList
                      | _ => []
                      end;
     Nav.next := 1;
     Nav.commands := 0;
     Nav.selected := {| Coords.x := 0; Coords.y := 2 |};
     Nav.config := Recent.applyOps [Recent.Add recentB; Recent.Add recentA] ∅;
     Nav.closed := 0;
     Nav.invoked := [] |}.

(** Two visible entries of one id, with another entry between them. *)
Definition registryTwice : list Registry.Entry :=
  [ entry "a" "Sign in" "Account" None false;
    entry "b" "Focus mode" "View" None false;
    entry "a" "Sign out" "Session" None true ].

End MoreSamples.

(** * Properties *)

(** ** Query classification *)

Module QueryFacts.
Import Query.

Lemma trimStart_split (s : jsstring) :
  ∃ pre, s = pre ++ trimStart s ∧ whitespace pre.
Proof.
  induction s as [|c s [pre [Hs Hpre]]]; simpl.
  - exists []. split; [done | constructor].
  - destruct (isWhiteSpace c) eqn:Hc.
    + exists (c :: pre). split; [by rewrite Hs at 1 | by constructor].
    + exists []. split; [done | constructor].
Qed.

Lemma trimStart_head (s : jsstring) (c : N) :
  head (trimStart s) = Some c → isWhiteSpace c = false.
Proof.
  induction s as [|a s IH]; simpl; [done |].
  destruct (isWhiteSpace a) eqn:Ha; [done |].
  simpl. by intros [= <-].
Qed.

Lemma trimEnd_split (s : jsstring) :
  ∃ post, s = trimEnd s ++ post ∧ whitespace post.
Proof.
  destruct (trimStart_split (reverse s)) as [pre [Hs Hpre]].
  exists (reverse pre). split.
  - rewrite <- (reverse_involutive s) at 1.
    rewrite Hs at 1. by rewrite reverse_app.
  - by apply Forall_reverse.
Qed.

Lemma trimEnd_last (s : jsstring) (c : N) :
  last (trimEnd s) = Some c → isWhiteSpace c = false.
Proof.
  unfold trimEnd. rewrite last_reverse. apply trimStart_head.
Qed.

(** Trimming the end keeps the first code unit of what is left. *)
Lemma trimEnd_head (s : jsstring) (c : N) :
  head (trimEnd s) = Some c → head s = Some c.
Proof.
  destruct (trimEnd_split s) as [post [Hs _]].
  intros Hc. rewrite Hs, head_app. by rewrite Hc.
Qed.

Lemma trim_isTrimOf (s : jsstring) : isTrimOf (trim s) s.
Proof.
  destruct (trimStart_split s) as [pre [Hs Hpre]].
  destruct (trimEnd_split (trimStart s)) as [post [Ht Hpost]].
  exists pre, post. repeat split; try done.
  - rewrite Hs at 1. by rewrite Ht at 1.
  - intros c Hc. apply (trimStart_head s). by apply trimEnd_head.
  - apply trimEnd_last.
Qed.

Lemma isCommandMode_iff (raw : jsstring) :
  isCommandMode raw = true ↔ ∃ rest, raw = sentinel :: rest.
Proof.
  unfold isCommandMode, startsWith. rewrite bool_decide_eq_true.
  destruct raw as [|c rest]; simpl.
  - split; [done | by intros [? ?]].
  - rewrite take_0. split.
    + intros [= ->]. by exists rest.
    + by intros [? [= -> _]].
Qed.

(** What [trim] leaves is determined by the string: no other trimmed
    part of the string is surrounded by whitespace only. *)
Lemma isTrimOf_unique (p q s : jsstring) :
  isTrimOf p s → isTrimOf q s → p = q.
Proof.
  intros (pre & post & -> & Hpre & Hpost & Hp) (pre' & post' & Heq & Hpre' & Hpost' & Hq).
  assert (Hfront : ∀ (a b u v x y : jsstring),
    a ++ u ++ x = b ++ v ++ y → whitespace a → whitespace b →
    whitespace y →
    (∀ c, head u = Some c → isWhiteSpace c = false) →
    (∀ c, head v = Some c → isWhiteSpace c = false) →
    u ≠ [] → a = b).
  { clear. induction a as [|c a IH]; intros b u v x y Heq Ha Hb Hy Hu Hv Hne.
    - destruct b as [|d b]; [done |]. exfalso.
      destruct u as [|c u]; [done |]. simpl in Heq. injection Heq as -> _.
      specialize (Hu d eq_refl). inversion Hb; subst. congruence.
    - inversion Ha as [|? ? Hc Ha']; subst.
      destruct b as [|d b].
      + exfalso. simpl in Heq. destruct v as [|d v].
        * simpl in Heq. subst y.
          assert (Hall : whitespace (a ++ u ++ x)) by (by inversion Hy).
          apply Forall_app in Hall as [_ Hall].
          apply Forall_app in Hall as [Hall _].
          destruct u as [|e u]; [done |].
          inversion Hall; subst. specialize (Hu e eq_refl). congruence.
        * simpl in Heq. injection Heq as <- _.
          specialize (Hv c eq_refl). congruence.
      + simpl in Heq. injection Heq as -> Heq. f_equal.
        inversion Hb; subst. by eapply IH. }
  destruct Hp as [Hp1 Hp2], Hq as [Hq1 Hq2].
  destruct (decide (p = [])) as [-> | Hpne].
  - (* the string is whitespace only *)
    destruct q as [|c q]; [done |]. exfalso.
    assert (Hall : whitespace (pre' ++ (c :: q) ++ post')).
    { rewrite <- Heq. apply Forall_app. split; [done |]. by apply Forall_app. }
    apply Forall_app in Hall as [_ Hall].
    apply Forall_app in Hall as [Hall _]. inversion Hall; subst.
    specialize (Hq1 c eq_refl). congruence.
  - destruct (decide (q = [])) as [-> | Hqne].
    { exfalso. destruct p as [|c p]; [done |].
      assert (Hall : whitespace (pre ++ (c :: p) ++ post)).
      { rewrite Heq. apply Forall_app. split; [done |]. by apply Forall_app. }
      apply Forall_app in Hall as [_ Hall].
      apply Forall_app in Hall as [Hall _]. inversion Hall; subst.
      specialize (Hp1 c eq_refl). congruence. }
    assert (pre = pre') as <-.
    { eapply (Hfront pre pre' p q post post'); eauto. }
    apply app_inv_head in Heq.
    (* the same argument on the reversed strings *)
    assert (Hrev : reverse post ++ reverse p ++ [] =
                   reverse post' ++ reverse q ++ []).
    { rewrite !app_nil_r, <- !reverse_app. by f_equal. }
    assert (reverse post = reverse post') as Hposts.
    { eapply (Hfront _ _ (reverse p) (reverse q) [] []); eauto.
      - by apply Forall_reverse.
      - by apply Forall_reverse.
      - constructor.
      - intros c. rewrite head_reverse. apply Hp2.
      - intros c. rewrite head_reverse. apply Hq2.
      - intros Hnil. apply Hpne. apply (f_equal reverse) in Hnil.
        by rewrite reverse_involutive in Hnil. }
    apply (f_equal reverse) in Hposts. rewrite !reverse_involutive in Hposts.
    subst post'. by apply app_inv_tail in Heq.
Qed.

Example prepareQuery_two_sentinels :
  prepareQuery (str ">> theme ") = str "> theme".
Proof. reflexivity. Qed.

Example prepareQuery_space_before_sentinel :
  classify (str " >theme") = (SearchMode, str ">theme").
Proof. reflexivity. Qed.

(** C7. Classification is a total function of the raw input. The mode is
    the command mode exactly when the input starts with the sentinel
    [>], and the search mode otherwise. The prepared query is what is
    left of the input, less one leading sentinel if there is one, once
    the whitespace around it is stripped on both sides: it has no
    whitespace at either end, only whitespace was taken away, and it is
    the only such part of the input. *)
Theorem classify_spec (raw : jsstring) :
  ∃ mode prepared body,
    classify raw = (mode, prepared) ∧
    (mode = CommandMode ↔ ∃ rest, raw = sentinel :: rest) ∧
    (mode = SearchMode ↔ ¬ ∃ rest, raw = sentinel :: rest) ∧
    (match mode with
     | CommandMode => raw = sentinel :: body
     | SearchMode => raw = body
     end) ∧
    prepared = trim body ∧
    isTrimOf prepared body ∧
    (∀ p, isTrimOf p body → p = prepared).
Proof.
  unfold classify, prepareQuery.
  destruct (isCommandMode raw) eqn:Hmode.
  - destruct (proj1 (isCommandMode_iff raw) Hmode) as [rest ->].
    exists CommandMode, (trim rest), rest. repeat split; try done.
    + intros _. by exists rest.
    + intros Hno. destruct Hno. by exists rest.
    + apply trim_isTrimOf.
    + intros p Hp. eapply isTrimOf_unique; [done | apply trim_isTrimOf].
  - assert (Hno : ¬ ∃ rest, raw = sentinel :: rest).
    { intros H. apply isCommandMode_iff in H. congruence. }
    exists SearchMode, (trim raw), raw. repeat split; try done.
    + apply trim_isTrimOf.
    + intros p Hp. eapply isTrimOf_unique; [done | apply trim_isTrimOf].
Qed.

End QueryFacts.

(** ** The recent-commands cache *)

Module RecentFacts.
Import Recent.

Lemma getRecentCommands_set (config : gmap jsstring (list Command))
    (value : list Command) :
  getRecentCommands (Config_set config recentKey value) = value.
Proof.
  unfold getRecentCommands, Config_get, Config_set.
  by rewrite lookup_insert_eq.
Qed.

(** [findIndex] followed by the guarded [splice] removes the first entry
    of the id, if there is one. *)
Lemma splice_findIndex (i : jsstring) (l : list Command) :
  let index := findIndex (λ c, bool_decide (id c = i)) l in
  (if decide (index > -1) then splice1 l index else l) = dropFirst i l.
Proof.
  unfold findIndex, splice1. induction l as [|c l IH]; simpl; [done |].
  destruct (decide (bool_decide (id c = i) = true)) as [Hc | Hc].
  - apply bool_decide_eq_true in Hc. simpl. by rewrite decide_True.
  - rewrite bool_decide_eq_true in Hc. rewrite (decide_False _ _ Hc).
    destruct (list_find _ l) as [[j d]|]; simpl in *.
    + rewrite decide_True in IH by lia.
      rewrite Nat2Z.id in IH |- *. simpl. by rewrite IH.
    + by rewrite <- IH.
Qed.

Lemma findIndex_found_iff (i : jsstring) (l : list Command) :
  findIndex (λ c, bool_decide (id c = i)) l > -1 ↔ i ∈ id <$> l.
Proof.
  unfold findIndex.
  destruct (list_find _ l) as [[j d]|] eqn:Hfind.
  - apply list_find_Some in Hfind as (Hj & Hd & _).
    apply bool_decide_eq_true in Hd. split; [intros _ | lia].
    apply list_elem_of_fmap. exists d. split; [done |].
    by eapply list_elem_of_lookup_2.
  - split; [lia |]. intros Hin. exfalso.
    apply list_elem_of_fmap in Hin as (d & -> & Hd).
    apply list_find_None in Hfind.
    rewrite Forall_forall in Hfind. apply (Hfind d Hd).
    by apply bool_decide_eq_true.
Qed.

Lemma dropFirst_sublist (i : jsstring) (l : list Command) :
  dropFirst i l `sublist_of` l.
Proof.
  induction l as [|c l IH]; simpl; [done |].
  destruct (decide (id c = i)).
  - by apply sublist_cons.
  - by apply sublist_skip.
Qed.

Lemma dropFirst_absent (i : jsstring) (l : list Command) :
  i ∉ id <$> l → dropFirst i l = l.
Proof.
  induction l as [|c l IH]; simpl; [done |].
  rewrite not_elem_of_cons. intros [Hc Hl].
  rewrite decide_False by done. by rewrite IH.
Qed.

Lemma dropFirst_filter (i : jsstring) (l : list Command) :
  NoDup (id <$> l) → dropFirst i l = filter (λ d, id d ≠ i) l.
Proof.
  induction l as [|c l IH]; simpl; [done |].
  rewrite NoDup_cons. intros [Hc Hl].
  destruct (decide (id c = i)) as [<- | Hne].
  - rewrite filter_cons_False by (intros H; by apply H).
    rewrite <- (dropFirst_absent (id c) l Hc) at 1. by apply IH.
  - rewrite filter_cons_True by done. by rewrite IH.
Qed.


(** The cache after one call, as a function of the cache before it. *)
Lemma getRecentCommands_add (c : Command)
    (config : gmap jsstring (list Command)) :
  type c ≠ Tcommand_dynamic →
  getRecentCommands (addRecentCommand c config) =
    let l := recentEntry c :: dropFirst (id c) (getRecentCommands config) in
    if decide (3 < length l)%nat then take 3 l else l.
Proof.
  intros Hc. unfold addRecentCommand. rewrite decide_False by done.
  rewrite getRecentCommands_set.
  pose proof (splice_findIndex (id c) (getRecentCommands config)) as Hs.
  simpl in Hs. rewrite Hs. simpl.
  destruct (decide (3 < S _)%nat); [rewrite decide_True by lia|
                                     rewrite decide_False by lia]; done.
Qed.

Lemma getRecentCommands_remove (i : jsstring)
    (config : gmap jsstring (list Command)) :
  getRecentCommands (removeRecentCommand i config) =
    dropFirst i (getRecentCommands config).
Proof.
  unfold removeRecentCommand.
  pose proof (splice_findIndex i (getRecentCommands config)) as Hs.
  simpl in Hs. rewrite <- Hs.
  destruct (decide (_ > -1)); [by rewrite getRecentCommands_set | done].
Qed.







Lemma Forall_sublist (P : Command → Prop) (l1 l2 : list Command) :
  l1 `sublist_of` l2 → Forall P l2 → Forall P l1.
Proof.
  rewrite !Forall_forall. intros Hsub HP d Hd. apply HP.
  by eapply elem_of_sublist.
Qed.




Import Samples.

Example add_x_y_x :
  id <$> getRecentCommands (applyOps [Add noteX; Add noteY; Add noteX] ∅)
  = [str "x"; str "y"].
Proof. vm_compute. reflexivity. Qed.

Example add_four_remove_one :
  id <$> getRecentCommands
           (applyOps [Add noteX; Add noteY; Add noteZ; Add tagW;
                      Remove (str "w")] ∅)
  = [str "z"; str "y"].
Proof. vm_compute. reflexivity. Qed.



(** The side condition of the move to the front: a dynamic command is
    not recorded, also when a command of another type with its id is in
    the cache, whose entry then stays where it is. *)
Lemma add_dynamic_present_not_moved :
  id dynamicX ∈
    id <$> getRecentCommands (applyOps [Add commandX; Add noteY] ∅) ∧
  id <$> getRecentCommands
           (addRecentCommand dynamicX (applyOps [Add commandX; Add noteY] ∅))
  = [id noteY; id commandX] ∧
  id <$> head (getRecentCommands
                 (addRecentCommand dynamicX
                    (applyOps [Add commandX; Add noteY] ∅)))
  ≠ Some (id dynamicX).
Proof.
  split; [| split].
  - vm_compute. apply list_elem_of_further, list_elem_of_here.
  - vm_compute. reflexivity.
  - vm_compute. discriminate.
Qed.

(** C8. Adding a dynamic command writes nothing: the whole store is
    left as it was. *)
Theorem addRecentCommand_dynamic (c : Command)
    (config : gmap jsstring (list Command)) :
  type c = Tcommand_dynamic → addRecentCommand c config = config.
Proof.
  intros Hdyn. unfold addRecentCommand. by rewrite decide_True.
Qed.

Lemma addRecentCommand_dynamic_witness :
  type dynamicX = Tcommand_dynamic ∧
  addRecentCommand dynamicX (applyOps [Add commandX; Add noteY] ∅)
  = applyOps [Add commandX; Add noteY] ∅.
Proof.
  split; [reflexivity |].
  apply (addRecentCommand_dynamic dynamicX). reflexivity.
Defined.

End RecentFacts.

(** ** Resolution of the registry *)

Module RegistryFacts.
Import Registry.

Lemma find_id_None (i : jsstring) (acc : list Command) :
  find (λ c, bool_decide (Cmd.id c = i)) acc = None ↔ i ∉ Cmd.id <$> acc.
Proof.
  unfold find. rewrite fmap_None, list_find_None, Forall_forall. split.
  - intros Hall Hin. apply list_elem_of_fmap in Hin as (c & -> & Hc).
    apply (Hall c Hc). by apply bool_decide_eq_true.
  - intros Hnot c Hc Heq. apply bool_decide_eq_true in Heq.
    apply Hnot, list_elem_of_fmap. by exists c.
Qed.

Lemma resolveEntry_id (e : Entry) (c : Command) :
  resolveEntry e = Some c → Cmd.id c = id e.
Proof.
  unfold resolveEntry.
  destruct (resolve (group e)), (resolve (title e)); try done.
  destruct (match hidden e with Some f => f () | None => false end); [done |].
  by intros [= <-].
Qed.

(** An entry is dropped exactly when it is hidden or has no group or no
    title. *)
Lemma resolveEntry_None (e : Entry) :
  resolveEntry e = None ↔
    (∃ f, hidden e = Some f ∧ f () = true) ∨
    resolve (group e) = None ∨ resolve (title e) = None.
Proof.
  unfold resolveEntry.
  destruct (resolve (group e)), (resolve (title e)); try (split; [auto | done]).
  destruct (hidden e) as [f|].
  - destruct (f ()) eqn:Hf; split; try done.
    + intros _. left. by exists f.
    + intros [(g & [= <-] & Hg) | [? | ?]]; congruence.
  - split; [done |]. intros [(g & ? & _) | [? | ?]]; done.
Qed.

Lemma resolveStep_eq (acc : list Command) (e : Entry) :
  resolveStep acc e =
    if decide (id e ∈ Cmd.id <$> acc) then acc
    else match resolveEntry e with
         | Some c => acc ++ [c]
         | None => acc
         end.
Proof.
  unfold resolveStep, resolveEntry.
  destruct (find _ acc) eqn:Hfind.
  - rewrite decide_True; [done |].
    destruct (decide (id e ∈ Cmd.id <$> acc)) as [| Hno]; [done |].
    apply find_id_None in Hno. congruence.
  - apply find_id_None in Hfind. rewrite decide_False by done.
    destruct (resolve (group e)), (resolve (title e)); try done.
    by destruct (match hidden e with Some f => f () | None => false end).
Qed.

Lemma dedupById_ext (s1 s2 : list jsstring) (l : list Command) :
  (∀ i, i ∈ s1 ↔ i ∈ s2) → dedupById s1 l = dedupById s2 l.
Proof.
  revert s1 s2. induction l as [|c l IH]; intros s1 s2 Hs; simpl; [done |].
  destruct (decide (Cmd.id c ∈ s1)) as [H1 | H1].
  - rewrite decide_True by by apply Hs. by apply IH.
  - rewrite decide_False by (by rewrite <- Hs). f_equal. apply IH.
    intros i. rewrite !elem_of_cons. by rewrite Hs.
Qed.

Lemma foldl_resolveStep (acc : list Command) (COMMANDS : list Entry) :
  foldl resolveStep acc COMMANDS =
    acc ++ dedupById (Cmd.id <$> acc) (omap resolveEntry COMMANDS).
Proof.
  revert acc. induction COMMANDS as [|e reg IH]; intros acc; simpl.
  - by rewrite app_nil_r.
  - rewrite resolveStep_eq.
    destruct (decide (id e ∈ Cmd.id <$> acc)) as [Hin | Hin].
    + rewrite IH. destruct (resolveEntry e) as [c|] eqn:He; [| done].
      simpl. rewrite (resolveEntry_id e c He). by rewrite decide_True.
    + destruct (resolveEntry e) as [c|] eqn:He; [| by rewrite IH].
      rewrite IH. simpl. rewrite (resolveEntry_id e c He).
      rewrite decide_False by done. rewrite <- app_assoc. simpl.
      do 2 f_equal. apply dedupById_ext. intros i.
      rewrite fmap_app, elem_of_app, elem_of_cons. simpl.
      rewrite list_elem_of_singleton, (resolveEntry_id e c He). tauto.
Qed.

Lemma resolveCommands_dedup (COMMANDS : list Entry) :
  resolveCommands COMMANDS = dedupById [] (omap resolveEntry COMMANDS).
Proof. unfold resolveCommands. by rewrite foldl_resolveStep. Qed.

Lemma dedupById_elem_of (seen : list jsstring) (l : list Command) (c : Command) :
  c ∈ dedupById seen l → c ∈ l ∧ Cmd.id c ∉ seen.
Proof.
  revert seen. induction l as [|d l IH]; intros seen; simpl.
  - by intros ?%elem_of_nil.
  - destruct (decide (Cmd.id d ∈ seen)) as [Hd | Hd].
    + intros [? ?]%IH. split; [by apply list_elem_of_further | done].
    + rewrite elem_of_cons. intros [-> | [? Hc]%IH].
      * split; [apply list_elem_of_here | done].
      * split; [by apply list_elem_of_further |].
        intros ?. apply Hc. by apply list_elem_of_further.
Qed.

Lemma dedupById_NoDup (seen : list jsstring) (l : list Command) :
  NoDup (Cmd.id <$> dedupById seen l).
Proof.
  revert seen. induction l as [|d l IH]; intros seen; simpl; [constructor |].
  destruct (decide (Cmd.id d ∈ seen)); [apply IH |].
  simpl. constructor; [| apply IH].
  intros Hin. apply list_elem_of_fmap in Hin as (c & Hid & Hc).
  apply dedupById_elem_of in Hc as [_ Hc]. apply Hc. rewrite <- Hid.
  apply list_elem_of_here.
Qed.

(** Nothing is dropped from a list of distinct ids none of which was
    seen. *)
Lemma dedupById_distinct (seen : list jsstring) (l : list Command) :
  NoDup (Cmd.id <$> l) → (∀ c, c ∈ l → Cmd.id c ∉ seen) →
  dedupById seen l = l.
Proof.
  revert seen. induction l as [|d l IH]; intros seen; simpl; [done |].
  rewrite NoDup_cons. intros [Hd Hl] Hseen.
  rewrite decide_False by apply Hseen, list_elem_of_here.
  f_equal. apply IH; [done |]. intros c Hc. rewrite not_elem_of_cons. split.
  - intros Heq. apply Hd. rewrite <- Heq. apply list_elem_of_fmap. by exists c.
  - by apply Hseen, list_elem_of_further.
Qed.

(** The first command of an id that was not seen is kept. *)
Lemma dedupById_first (seen : list jsstring) (l1 l2 : list Command)
    (c : Command) :
  Cmd.id c ∉ seen → Cmd.id c ∉ Cmd.id <$> l1 →
  c ∈ dedupById seen (l1 ++ c :: l2).
Proof.
  revert seen. induction l1 as [|d l1 IH]; intros seen Hseen Hl1; simpl.
  - rewrite decide_False by done. apply list_elem_of_here.
  - simpl in Hl1. apply not_elem_of_cons in Hl1 as [Hd Hl1].
    destruct (decide (Cmd.id d ∈ seen)); [by apply IH |].
    apply list_elem_of_further, IH; [| done].
    rewrite not_elem_of_cons. by split.
Qed.

Import Samples.

Example resolve_registry6 :
  Cmd.id <$> resolveCommands registry6 =
  [str "a"; str "b"; str "c"; str "d"; str "e"].
Proof. reflexivity. Qed.

Example search_registry6_empty_cache :
  commandSearch flat registry6 ∅ [] = omap resolveEntry registry6 ∧
  length (commandSearch flat registry6 ∅ []) = 5%nat.
Proof. split; reflexivity. Qed.

(** C6. In command mode the candidates of a search with any prepared
    query are the entries of the recent-commands cache followed by the
    resolved registry. The resolved registry is the registry without the
    entries that are hidden or have no group or no title, deduplicated
    by id with the first of the remaining entries of an id winning. With
    an empty prepared query and a registry whose visible entries have
    distinct ids, the result is the entries of the cache followed by
    exactly the visible entries, in the order of the registry. *)
Theorem commandSearch_spec (quality : jsstring → jsstring → nat)
    (COMMANDS : list Entry) (config : gmap jsstring (list Command))
    (query : jsstring) :
  commandSearch quality COMMANDS config query =
    fuzzy quality query
      (Recent.getRecentCommands config ++ resolveCommands COMMANDS) ∧
  resolveCommands COMMANDS = dedupById [] (omap resolveEntry COMMANDS) ∧
  NoDup (Cmd.id <$> resolveCommands COMMANDS) ∧
  (∀ c, c ∈ resolveCommands COMMANDS →
        ∃ e, e ∈ COMMANDS ∧ resolveEntry e = Some c ∧
             ¬ ((∃ f, hidden e = Some f ∧ f () = true) ∨
                resolve (group e) = None ∨ resolve (title e) = None)) ∧
  (NoDup (Cmd.id <$> omap resolveEntry COMMANDS) →
   commandSearch quality COMMANDS config [] =
     Recent.getRecentCommands config ++ omap resolveEntry COMMANDS).
Proof.
  split; [done |]. split; [apply resolveCommands_dedup |].
  split; [rewrite resolveCommands_dedup; apply dedupById_NoDup |]. split.
  - intros c. rewrite resolveCommands_dedup.
    intros [Hc _]%dedupById_elem_of.
    apply list_elem_of_omap in Hc as (e & He & Hres).
    exists e. repeat split; try done.
    rewrite <- resolveEntry_None. congruence.
  - intros Hnd. unfold commandSearch, getDefaultCommands. simpl.
    rewrite resolveCommands_dedup. f_equal.
    apply dedupById_distinct; [done |]. intros c _. apply not_elem_of_nil.
Qed.

Lemma commandSearch_spec_witness :
  NoDup (Cmd.id <$> omap resolveEntry registry6) ∧
  commandSearch flat registry6 (Recent.applyOps [Recent.Add chosenA] ∅) [] =
    Recent.getRecentCommands (Recent.applyOps [Recent.Add chosenA] ∅) ++
    omap resolveEntry registry6.
Proof.
  assert (Hnd : NoDup (Cmd.id <$> omap resolveEntry registry6)).
  { apply bool_decide_unpack with (dec := NoDup_dec _). vm_compute. exact I. }
  split; [exact Hnd |].
  apply (commandSearch_spec flat registry6
           (Recent.applyOps [Recent.Add chosenA] ∅) []). exact Hnd.
Defined.

(** C6 as it is stated fails when the cache is not empty: the entries
    of the cache are candidates as well, so that against a registry of
    five visible entries and a hidden one an empty query returns six
    commands, two of them with the same id. *)
Lemma commandSearch_includes_recent :
  length (omap resolveEntry registry6) = 5%nat ∧
  length registry6 = 6%nat ∧
  Cmd.id <$> commandSearch flat registry6
               (Recent.applyOps [Recent.Add chosenA] ∅) [] =
    [str "a"; str "a"; str "b"; str "c"; str "d"; str "e"] ∧
  commandSearch flat registry6 (Recent.applyOps [Recent.Add chosenA] ∅) []
    ≠ omap resolveEntry registry6 ∧
  ¬ NoDup (Cmd.id <$> commandSearch flat registry6
                        (Recent.applyOps [Recent.Add chosenA] ∅) []).
Proof.
  repeat split; try (vm_compute; reflexivity).
  - vm_compute. discriminate.
  - intros Hnd. vm_compute in Hnd. apply NoDup_cons in Hnd as [Hnot _].
    apply Hnot, list_elem_of_here.
Qed.

(** C10. Only the entries that are kept count for the deduplication by
    id: an entry that is not excluded is in the result as soon as every
    entry of its id before it in the registry is excluded (hidden, or
    with no group or no title). *)
Theorem resolveCommands_first_kept (pre post : list Entry) (e : Entry)
    (c : Command) :
  resolveEntry e = Some c →
  Forall (λ e', id e' = id e → resolveEntry e' = None) pre →
  c ∈ resolveCommands (pre ++ e :: post).
Proof.
  intros He Hpre. rewrite resolveCommands_dedup, omap_app. simpl.
  rewrite He. apply dedupById_first; [apply not_elem_of_nil |].
  intros Hin. apply list_elem_of_fmap in Hin as (d & Hid & Hd).
  apply list_elem_of_omap in Hd as (e' & He' & Hres).
  rewrite Forall_forall in Hpre.
  rewrite Hpre in Hres; [done | done |].
  rewrite <- (resolveEntry_id e c He), Hid. symmetry.
  by apply resolveEntry_id.
Qed.

Lemma resolveCommands_first_kept_witness :
  resolveEntry (entry "a" "Sign out" "Account" None false) =
    Some (mk "a" "Sign out" "Account" Tcommand) ∧
  Forall (λ e', id e' = str "a" → resolveEntry e' = None)
    [ entry "a" "Sign in" "Account" (Some (λ _, true)) false;
      entry "b" "Focus mode" "View" None false ] ∧
  mk "a" "Sign out" "Account" Tcommand ∈ resolveCommands registryShadowed.
Proof.
  assert (Hpre : Forall (λ e', id e' = str "a" → resolveEntry e' = None)
            [ entry "a" "Sign in" "Account" (Some (λ _, true)) false;
              entry "b" "Focus mode" "View" None false ]).
  { repeat constructor; intros Hid;
      first [reflexivity | (vm_compute in Hid; discriminate)]. }
  split; [reflexivity |]. split; [exact Hpre |].
  apply (resolveCommands_first_kept
           [ entry "a" "Sign in" "Account" (Some (λ _, true)) false;
             entry "b" "Focus mode" "View" None false ] []
           (entry "a" "Sign out" "Account" None false)
           (mk "a" "Sign out" "Account" Tcommand)); [reflexivity | exact Hpre].
Defined.

End RegistryFacts.

(** ** Grouping *)

Module GroupingFacts.
Import Grouping.

(** *** Summaries and run-length encoding *)

Lemma replay_cons (r : GroupCount) (S : list GroupCount) :
  replay (r :: S) = replicate (count r) (group r) ++ replay S.
Proof. reflexivity. Qed.

Lemma replay_app (S1 S2 : list GroupCount) :
  replay (S1 ++ S2) = replay S1 ++ replay S2.
Proof. unfold replay. by rewrite fmap_app, concat_app. Qed.

Lemma replay_length (S : list GroupCount) :
  length (replay S) = sum_list_with count S.
Proof.
  induction S as [|r S IH]; [done |].
  rewrite replay_cons, length_app, length_replicate. simpl. by rewrite IH.
Qed.

Lemma rle_cons (g : jsstring) (labels : list jsstring) :
  rle (g :: labels) =
    match rle labels with
    | r :: rs =>
        if decide (group r = g)
        then {| group := g; count := S (count r) |} :: rs
        else {| group := g; count := 1 |} :: r :: rs
    | [] => [ {| group := g; count := 1 |} ]
    end.
Proof. reflexivity. Qed.

Lemma rle_run (g : jsstring) (k : nat) (labels : list jsstring) :
  head (group <$> rle labels) ≠ Some g →
  rle (replicate (S k) g ++ labels) =
    {| group := g; count := S k |} :: rle labels.
Proof.
  intros Hhead. induction k as [|k IH].
  - simpl. destruct (rle labels) as [|r rs]; [done |].
    rewrite decide_False; [done |]. intros Heq. apply Hhead. simpl. by f_equal.
  - change (replicate (S (S k)) g ++ labels)
      with (g :: (replicate (S k) g ++ labels)).
    rewrite rle_cons, IH. simpl. by rewrite decide_True.
Qed.

(** A summary with positive counts and distinct labels is the
    run-length encoding of what it replays. *)
Lemma rle_replay (S : list GroupCount) :
  Forall (λ r, 0 < count r)%nat S → NoDup (group <$> S) →
  rle (replay S) = S.
Proof.
  induction S as [|[g n] S IH]; [done |].
  rewrite Forall_cons, fmap_cons, NoDup_cons. simpl.
  intros [Hn Hpos] [Hg Hnd]. rewrite replay_cons. simpl.
  destruct n as [|k]; [lia |].
  rewrite rle_run; rewrite IH by done; [done |].
  destruct S as [|r S']; [done |]. simpl. intros [= Heq].
  apply Hg. rewrite <- Heq. apply list_elem_of_here.
Qed.

(** *** The reduction of [grouped] *)

Lemma groupStep_new (acc : list GroupCount) (c : Command) :
  Cmd.group c ∉ group <$> acc →
  groupStep acc c = acc ++ [ {| group := Cmd.group c; count := 1 |} ].
Proof.
  intros Hnew. unfold groupStep.
  destruct (list_find _ acc) as [[i r]|] eqn:Hfind; [| done].
  apply list_find_Some in Hfind as (Hi & Hr & _). destruct Hnew.
  apply list_elem_of_fmap. exists r. split; [done |].
  by eapply list_elem_of_lookup_2.
Qed.

Lemma groupStep_last (acc : list GroupCount) (c : Command) (m : nat) :
  Cmd.group c ∉ group <$> acc →
  groupStep (acc ++ [ {| group := Cmd.group c; count := m |} ]) c =
    acc ++ [ {| group := Cmd.group c; count := S m |} ].
Proof.
  intros Hnew. unfold groupStep.
  rewrite (list_find_app_r _ acc).
  2: { apply list_find_None, Forall_forall. intros r Hr Heq. apply Hnew.
       apply list_elem_of_fmap. by exists r. }
  simpl. rewrite decide_True by done. simpl.
  replace (length acc) with (length acc + 0)%nat at 1 by lia.
  by rewrite alter_app_r.
Qed.

Lemma foldl_groupStep_run (acc : list GroupCount) (cs : list Command)
    (g : jsstring) (m : nat) :
  g ∉ group <$> acc → Forall (λ c, Cmd.group c = g) cs →
  foldl groupStep (acc ++ [ {| group := g; count := m |} ]) cs =
    acc ++ [ {| group := g; count := (m + length cs)%nat |} ].
Proof.
  intros Hnew Hcs. revert m.
  induction Hcs as [|c cs Hc _ IH]; intros m; simpl.
  - by rewrite Nat.add_0_r.
  - subst g. rewrite groupStep_last by done. rewrite IH.
    do 3 f_equal. lia.
Qed.

Lemma fmap_replicate_inv (g : jsstring) (n : nat) (cs : list Command) :
  Cmd.group <$> cs = replicate n g →
  length cs = n ∧ Forall (λ c, Cmd.group c = g) cs.
Proof.
  revert n. induction cs as [|c cs IH]; intros [|n]; simpl; try done.
  intros [= Hc Hcs]. destruct (IH n Hcs) as [<- Hall].
  split; [done | by constructor].
Qed.

(** On commands whose groups are the replay of a summary with positive
    counts and distinct labels, [grouped] computes this summary. *)
Lemma foldl_groupStep_replay (S acc : list GroupCount) (cs : list Command) :
  NoDup (group <$> (acc ++ S)) →
  Forall (λ r, 0 < count r)%nat S →
  Cmd.group <$> cs = replay S →
  foldl groupStep acc cs = acc ++ S.
Proof.
  revert acc cs. induction S as [|[g n] S IH]; intros acc cs Hnd Hpos Hcs.
  - destruct cs; [| done]. simpl. by rewrite app_nil_r.
  - rewrite replay_cons in Hcs. simpl in Hcs.
    apply fmap_app_inv in Hcs as (c1 & c2 & Hc1 & Hc2 & ->).
    symmetry in Hc1. apply fmap_replicate_inv in Hc1 as [Hlen Hall].
    apply Forall_cons in Hpos as [Hn Hpos]. simpl in Hn.
    assert (Hg : g ∉ group <$> acc).
    { rewrite fmap_app in Hnd. apply NoDup_app in Hnd as (_ & Hdisj & _).
      intros Hin. apply (Hdisj g Hin). simpl. apply list_elem_of_here. }
    destruct c1 as [|c c1]; [simpl in Hlen; lia |].
    apply Forall_cons in Hall as [Hc Hall].
    rewrite foldl_app. simpl. subst g.
    rewrite groupStep_new by done.
    rewrite foldl_groupStep_run by done.
    replace (1 + length c1)%nat with n by (simpl in Hlen; lia).
    rewrite (IH (acc ++ [ {| group := Cmd.group c; count := n |} ]) c2).
    + by rewrite <- app_assoc.
    + by rewrite <- app_assoc.
    + done.
    + by symmetry.
Qed.

(** *** The loop of [sortCommands] *)

Lemma findIndex_cases {A : Type} (p : A → bool) (l : list A) :
  (findIndex p l = -1 ∧ Forall (λ x, p x ≠ true) l) ∨
  (∃ i x, findIndex p l = Z.of_nat i ∧ l !! i = Some x ∧ p x = true).
Proof.
  unfold findIndex. destruct (list_find _ l) as [[i x]|] eqn:Hfind.
  - right. apply list_find_Some in Hfind as (Hi & Hx & _). by exists i, x.
  - left. by apply list_find_None in Hfind.
Qed.

Lemma groups_of_run (g : jsstring) (l : list Command) :
  Forall (λ c, Cmd.group c = g) l →
  Cmd.group <$> l = replicate (length l) g.
Proof.
  induction 1 as [|c l Hc _ IH]; [done |]. by rewrite fmap_cons, IH, Hc.
Qed.

Lemma wellBucketed_sortStep (st : list Command * list bucket) (c : Command) :
  wellBucketed st → wellBucketed (sortStep st c).
Proof.
  destruct st as [rec bs]. intros (Hrec & Hbs & Hnd). simpl in *.
  unfold sortStep. simpl.
  destruct (decide (Cmd.group c = recent)) as [Hc | Hc].
  - repeat split; simpl; try done. apply Forall_app. split; [done |].
    by repeat constructor.
  - destruct (findIndex_cases
                (λ b : bucket, bool_decide (Cmd.group b.1 = Cmd.group c)) bs)
      as [[-> Hnone] | (i & b & -> & Hi & Hb)].
    + rewrite decide_True by done. repeat split; simpl; try done.
      * apply Forall_app. split; [done |]. by repeat constructor.
      * rewrite fmap_app. apply NoDup_app. repeat split; [done | |].
        -- intros g Hg Hin. simpl in Hin. apply list_elem_of_singleton in Hin.
           apply list_elem_of_fmap in Hg as (b & -> & Hb).
           rewrite Forall_forall in Hnone. apply (Hnone b Hb).
           by apply bool_decide_eq_true.
        -- simpl. apply NoDup_singleton.
    + rewrite decide_False by lia. rewrite Nat2Z.id.
      apply bool_decide_eq_true in Hb.
      repeat split; simpl; try done.
      * apply Forall_alter; [done |]. intros b' Hb' [Hne Hall]. simpl.
        split; [done |]. apply Forall_app. split; [done |].
        constructor; [| done]. congruence.
      * rewrite (list_fmap_alter _ _ (λ g, g)); [| by apply Forall_true].
        by rewrite list_alter_id.
Qed.

Lemma wellBucketed_foldl (commands : list Command)
    (st : list Command * list bucket) :
  wellBucketed st → wellBucketed (foldl sortStep st commands).
Proof.
  revert st. induction commands as [|c commands IH]; intros st Hst; [done |].
  simpl. by apply IH, wellBucketed_sortStep.
Qed.

Lemma groups_of_buckets (bs : list bucket) :
  Forall (λ b : bucket,
            Cmd.group b.1 ≠ recent ∧
            Forall (λ c, Cmd.group c = Cmd.group b.1) b.2) bs →
  Cmd.group <$> concat (bucketItems <$> bs) =
  replay ((λ b : bucket,
             {| group := Cmd.group b.1; count := S (length b.2) |}) <$> bs).
Proof.
  induction 1 as [|[c cs] bs [_ Hb] _ IH]; [done |].
  rewrite !fmap_cons, replay_cons. simpl in *.
  rewrite fmap_app, IH. by rewrite (groups_of_run (Cmd.group c) cs).
Qed.

Lemma groups_of_state (st : list Command * list bucket) :
  wellBucketed st →
  Cmd.group <$> (st.1 ++ concat (bucketItems <$> st.2)) =
  replay (stateSummary st).
Proof.
  destruct st as [rec bs]. intros (Hrec & Hbs & _). simpl in *.
  unfold stateSummary. simpl.
  rewrite fmap_app, replay_app, (groups_of_buckets bs Hbs). f_equal.
  rewrite (groups_of_run recent rec Hrec).
  destruct rec; [done |]. unfold replay. simpl. by rewrite app_nil_r.
Qed.

Lemma stateSummary_distinct (st : list Command * list bucket) :
  wellBucketed st →
  Forall (λ r, 0 < count r)%nat (stateSummary st) ∧
  NoDup (group <$> stateSummary st).
Proof.
  destruct st as [rec bs]. intros (_ & Hbs & Hnd). simpl in *.
  unfold stateSummary. simpl.
  assert (Hheads :
    group <$> ((λ b : bucket,
                  {| group := Cmd.group b.1; count := S (length b.2) |})
                 <$> bs) = (λ b : bucket, Cmd.group b.1) <$> bs).
  { rewrite <- list_fmap_compose. by apply list_fmap_ext. }
  assert (Hcounts :
    Forall (λ r, 0 < count r)%nat
      ((λ b : bucket,
          {| group := Cmd.group b.1; count := S (length b.2) |}) <$> bs)).
  { apply Forall_fmap, Forall_true. intros b. simpl. lia. }
  destruct rec as [|c rec]; csimpl.
  - split; [done | by rewrite Hheads].
  - split; [constructor; [simpl; lia | done] |].
    rewrite Hheads. constructor; [| done].
    intros Hin. apply list_elem_of_fmap in Hin as (b & Hg & Hb).
    rewrite Forall_forall in Hbs. by destruct (Hbs b Hb) as [Hne _].
Qed.

Import Samples.

Example sort_then_group :
  grouped (sortCommands [noteX; tagW; Recent.recentEntry noteZ; noteY]) =
  [ {| group := recent; count := 1 |};
    {| group := str "Notes"; count := 2 |};
    {| group := str "Tags"; count := 1 |} ].
Proof. reflexivity. Qed.

(** On a list that is not sorted by groups the summary is the count per
    group, not the run lengths. *)
Example group_unsorted :
  grouped [noteX; tagW; noteY] =
  [ {| group := str "Notes"; count := 2 |};
    {| group := str "Tags"; count := 1 |} ].
Proof. reflexivity. Qed.

(** C3. For the list that [sortCommands] makes of any commands, the
    summary [grouped] is the run-length encoding of the groups of the
    list: its counts add up to the length of the list, and replaying
    every pair as often as its count says gives the group of every
    entry, in order. *)
Theorem grouped_sortCommands (commands : list Command) :
  grouped (sortCommands commands) =
    rle (Cmd.group <$> sortCommands commands) ∧
  sum_list_with count (grouped (sortCommands commands)) =
    length (sortCommands commands) ∧
  replay (grouped (sortCommands commands)) =
    Cmd.group <$> sortCommands commands ∧
  Forall (λ r, 0 < count r)%nat (grouped (sortCommands commands)) ∧
  NoDup (group <$> grouped (sortCommands commands)).
Proof.
  unfold sortCommands.
  set (st := foldl sortStep ([], []) commands).
  assert (Hst : wellBucketed st).
  { apply wellBucketed_foldl. repeat split; simpl; constructor. }
  pose proof (groups_of_state st Hst) as Hgroups.
  destruct (stateSummary_distinct st Hst) as [Hpos Hnd].
  assert (Hgrouped :
    grouped (st.1 ++ concat (bucketItems <$> st.2)) = stateSummary st).
  { unfold grouped.
    by rewrite (foldl_groupStep_replay (stateSummary st) []). }
  rewrite Hgrouped, Hgroups. repeat split; try done.
  - symmetry. by apply rle_replay.
  - rewrite <- replay_length, <- Hgroups. by rewrite length_fmap.
Qed.

End GroupingFacts.

(** ** Keyboard navigation *)

Module NavFacts.
Import Nav.

Lemma index_nil {A : Type} (i : Z) : index ([] : list A) i = None.
Proof. unfold index. by destruct (decide (0 ≤ i)). Qed.

Lemma index_in_range {A : Type} (a : list A) (i : Z) :
  0 ≤ i < Z.of_nat (length a) → is_Some (index a i).
Proof.
  intros Hi. unfold index. rewrite decide_True by lia.
  apply lookup_lt_is_Some. lia.
Qed.

Lemma index_Some_range {A : Type} (a : list A) (i : Z) (x : A) :
  index a i = Some x → 0 ≤ i < Z.of_nat (length a).
Proof.
  unfold index. destruct (decide (0 ≤ i)); [| done].
  intros H%lookup_lt_Some. lia.
Qed.

Import Samples.

(** The scenario of the spec, through the key handler's functions. *)
Example scenario_right_down_down_right :
  moveSelectionRight origin scenarioList
    = Normal {| Coords.x := 1; Coords.y := 0 |} ∧
  moveSelectionDown {| Coords.x := 1; Coords.y := 0 |} scenarioList
    = Normal {| Coords.x := 1; Coords.y := 1 |} ∧
  moveSelectionDown {| Coords.x := 1; Coords.y := 1 |} scenarioList
    = Normal {| Coords.x := 0; Coords.y := 2 |} ∧
  moveSelectionRight {| Coords.x := 0; Coords.y := 2 |} scenarioList
    = Normal {| Coords.x := 0; Coords.y := 2 |}.
Proof. repeat split. Qed.

(** C2. On the empty list the four functions that move the selection
    raise a [TypeError] instead of leaving the cursor alone: there is no
    command at the cursor, and they read its group. Only [Enter] is a
    no-op there. *)
Theorem moves_on_empty_list (COMMANDS : list Registry.Entry)
    (selected : Coords.t) (d : Dialog) :
  moveSelectionDown selected [] = TypeError ∧
  moveSelectionUp selected [] = TypeError ∧
  moveSelectionRight selected [] = TypeError ∧
  moveSelectionLeft selected [] = TypeError ∧
  onKeyDown COMMANDS ArrowDown (setCommandsNew [] d) = TypeError ∧
  onKeyDown COMMANDS ArrowUp (setCommandsNew [] d) = TypeError ∧
  onKeyDown COMMANDS ArrowRight (setCommandsNew [] d) = TypeError ∧
  onKeyDown COMMANDS ArrowLeft (setCommandsNew [] d) = TypeError ∧
  onKeyDown COMMANDS Enter (setCommandsNew [] d)
    = Normal (setCommandsNew [] d).
Proof.
  unfold onKeyDown, moveSelectionDown, moveSelectionUp, moveSelectionRight,
    moveSelectionLeft. simpl.
  rewrite fn_lookup_insert, !index_nil. by repeat split.
Qed.

(** C4. With the cursor on a row of a list of length [N],
    [moveSelectionDown] goes to row [(row + 1) mod N] and
    [moveSelectionUp] to row [(row - 1 + N) mod N]; the column is kept if
    the command of the row left and the one of the row reached are both
    of the group ["recent"], and is 0 otherwise. *)
Theorem moveSelection_vertical (commands : list Command) (row col : Z) :
  0 ≤ row < Z.of_nat (length commands) →
  ∃ current below above,
    index commands row = Some current ∧
    index commands ((row + 1) `mod` Z.of_nat (length commands)) = Some below ∧
    index commands
      ((row - 1 + Z.of_nat (length commands)) `mod` Z.of_nat (length commands))
      = Some above ∧
    moveSelectionDown {| Coords.x := col; Coords.y := row |} commands =
      Normal {| Coords.x :=
                  if decide (group current = recent ∧ group below = recent)
                  then col else 0;
                Coords.y := (row + 1) `mod` Z.of_nat (length commands) |} ∧
    moveSelectionUp {| Coords.x := col; Coords.y := row |} commands =
      Normal {| Coords.x :=
                  if decide (group current = recent ∧ group above = recent)
                  then col else 0;
                Coords.y := (row - 1 + Z.of_nat (length commands))
                              `mod` Z.of_nat (length commands) |}.
Proof.
  intros Hrow. set (N := Z.of_nat (length commands)) in *.
  assert (Hdown : 0 ≤ (row + 1) `mod` N < N) by (apply Z.mod_pos_bound; lia).
  assert (Hup : 0 ≤ (row - 1 + N) `mod` N < N) by (apply Z.mod_pos_bound; lia).
  destruct (index_in_range commands row Hrow) as [current Hcur].
  destruct (index_in_range commands _ Hdown) as [below Hbelow].
  destruct (index_in_range commands _ Hup) as [above Habove].
  exists current, below, above. repeat split; try done.
  - unfold moveSelectionDown. simpl. rewrite Hcur. fold N.
    rewrite Z.rem_mod_nonneg by lia. rewrite Hbelow.
    destruct (decide (group current = recent)) as [Hc | Hc].
    + destruct (decide (group below = recent)) as [Hb | Hb].
      * by rewrite decide_True.
      * rewrite decide_False; [done | tauto].
    + rewrite decide_False; [done | tauto].
  - unfold moveSelectionUp. simpl. rewrite Hcur. fold N.
    rewrite Z.rem_mod_nonneg by lia. rewrite Habove.
    destruct (decide (group current = recent)) as [Hc | Hc].
    + destruct (decide (group above = recent)) as [Ha | Ha].
      * by rewrite decide_True.
      * rewrite decide_False; [done | tauto].
    + rewrite decide_False; [done | tauto].
Qed.

Lemma moveSelection_vertical_witness :
  0 ≤ 1 < Z.of_nat (length scenarioList) ∧
  moveSelectionDown {| Coords.x := 1; Coords.y := 1 |} scenarioList
    = Normal {| Coords.x := 0; Coords.y := 2 |} ∧
  moveSelectionUp {| Coords.x := 1; Coords.y := 1 |} scenarioList
    = Normal {| Coords.x := 1; Coords.y := 0 |}.
Proof.
  assert (Hrow : 0 ≤ 1 < Z.of_nat (length scenarioList)) by (simpl; lia).
  split; [exact Hrow |].
  destruct (moveSelection_vertical scenarioList 1 1 Hrow)
    as (current & below & above & Hc & Hb & Ha & Hdown & Hup).
  vm_compute in Hc, Hb, Ha.
  injection Hc as <-. injection Hb as <-. injection Ha as <-.
  split; [exact Hdown | exact Hup].
Defined.

(** C9. On a row whose command is of another group than ["recent"],
    [moveSelectionRight] and [moveSelectionLeft] return the cursor they
    were given, and the key handler leaves the dialog as it is. *)
Theorem moveSelection_horizontal_other_group (COMMANDS : list Registry.Entry)
    (d : Dialog) (current : Command) :
  index (heap d (commands d)) (Coords.y (selected d)) = Some current →
  group current ≠ recent →
  moveSelectionRight (selected d) (heap d (commands d)) = Normal (selected d) ∧
  moveSelectionLeft (selected d) (heap d (commands d)) = Normal (selected d) ∧
  onKeyDown COMMANDS ArrowRight d = Normal d ∧
  onKeyDown COMMANDS ArrowLeft d = Normal d.
Proof.
  intros Hcur Hgroup.
  assert (Hright : moveSelectionRight (selected d) (heap d (commands d))
                   = Normal (selected d)).
  { unfold moveSelectionRight. rewrite Hcur. by rewrite decide_True. }
  assert (Hleft : moveSelectionLeft (selected d) (heap d (commands d))
                  = Normal (selected d)).
  { unfold moveSelectionLeft. rewrite Hcur. by rewrite decide_True. }
  repeat split; try done.
  - unfold onKeyDown. rewrite Hright. by destruct d.
  - unfold onKeyDown. rewrite Hleft. by destruct d.
Qed.

Lemma moveSelection_horizontal_other_group_witness :
  index scenarioList 2 = Some noteC ∧ group noteC ≠ recent ∧
  moveSelectionRight {| Coords.x := 0; Coords.y := 2 |} scenarioList
    = Normal {| Coords.x := 0; Coords.y := 2 |} ∧
  moveSelectionLeft {| Coords.x := 0; Coords.y := 2 |} scenarioList
    = Normal {| Coords.x := 0; Coords.y := 2 |}.
Proof.
  assert (Hgroup : group noteC ≠ recent) by (vm_compute; discriminate).
  split; [reflexivity |]. split; [exact Hgroup |].
  pose proof (moveSelection_horizontal_other_group []
                {| heap := λ _, scenarioList; next := 1; commands := 0;
                   selected := {| Coords.x := 0; Coords.y := 2 |};
                   config := ∅; closed := 0; invoked := [] |}
                noteC eq_refl Hgroup) as (Hright & Hleft & _).
  split; [exact Hright | exact Hleft].
Defined.

(** C5. [Enter] with the cursor in column 1 of a row that has a command
    (the handler does not look at its group) removes the entry of the
    command's id from the recent-commands cache, puts the list without
    the commands of this id into a new array and leaves every array
    that existed as it was, moves the cursor to (0, 0), invokes no
    action and does not close the dialog. *)
Theorem enter_on_remove_button (COMMANDS : list Registry.Entry)
    (d : Dialog) (command : Command) :
  (commands d < next d)%nat →
  index (heap d (commands d)) (Coords.y (selected d)) = Some command →
  Coords.x (selected d) = 1 →
  group command = recent →
  ∃ d',
    onKeyDown COMMANDS Enter d = Normal d' ∧
    selected d' = origin ∧
    closed d' = closed d ∧
    invoked d' = invoked d ∧
    Recent.getRecentCommands (config d') =
      Recent.dropFirst (id command) (Recent.getRecentCommands (config d)) ∧
    (NoDup (id <$> Recent.getRecentCommands (config d)) →
     id command ∉ id <$> Recent.getRecentCommands (config d')) ∧
    (∀ key, key ≠ Recent.recentKey → config d' !! key = config d !! key) ∧
    heap d' (commands d') =
      filter (λ c, id c ≠ id command) (heap d (commands d)) ∧
    (command ∉ heap d' (commands d')) ∧
    commands d' ≠ commands d ∧
    (∀ a, (a < next d)%nat → heap d' a = heap d a) ∧
    heap d' (commands d) = heap d (commands d).
Proof.
  intros Halloc Hcommand Hcol _.
  eexists. split.
  { unfold onKeyDown. rewrite Hcommand. rewrite decide_True by done.
    reflexivity. }
  simpl. rewrite fn_lookup_insert.
  repeat split; try done.
  - apply RecentFacts.getRecentCommands_remove.
  - intros Hnd. rewrite RecentFacts.getRecentCommands_remove.
    rewrite RecentFacts.dropFirst_filter by done.
    intros Hin. apply list_elem_of_fmap in Hin as (c & Hid & Hc).
    apply list_elem_of_filter in Hc as [Hne _]. by apply Hne.
  - intros key Hkey. unfold Recent.removeRecentCommand.
    destruct (decide _); [| done].
    unfold Recent.Config_set. by rewrite lookup_insert_ne.
  - intros Hin. apply list_elem_of_filter in Hin as [Hne _]. by apply Hne.
  - lia.
  - intros a Ha. apply fn_lookup_insert_ne. lia.
  - apply fn_lookup_insert_ne. lia.
Qed.

Lemma enter_on_remove_button_witness :
  (commands dialogOnRemove < next dialogOnRemove)%nat ∧
  index (heap dialogOnRemove (commands dialogOnRemove))
        (Coords.y (selected dialogOnRemove)) = Some recentA ∧
  Coords.x (selected dialogOnRemove) = 1 ∧
  group recentA = recent ∧
  ∃ d',
    onKeyDown registry6 Enter dialogOnRemove = Normal d' ∧
    selected d' = origin ∧
    closed d' = 0%nat ∧
    id <$> Recent.getRecentCommands (config d') = [str "c"] ∧
    heap d' (commands d') = [noteC] ∧
    heap d' 0%nat = [recentA; chosenA; noteC].
Proof.
  assert (Halloc : (commands dialogOnRemove < next dialogOnRemove)%nat)
    by (simpl; lia).
  split; [exact Halloc |]. split; [reflexivity |]. split; [reflexivity |].
  split; [reflexivity |].
  destruct (enter_on_remove_button registry6 dialogOnRemove recentA
              Halloc eq_refl eq_refl eq_refl)
    as (d' & Hkey & Hsel & Hclosed & _ & Hcache & _ & _ & Hlist & _ & _ & _ & Hold).
  exists d'. split; [exact Hkey |]. split; [exact Hsel |].
  split; [exact Hclosed |]. split; [by rewrite Hcache |].
  split; [by rewrite Hlist | exact Hold].
Defined.

End NavFacts.

(** * Further properties *)

(** ** The recent-commands cache, whatever the store holds *)

Module RecentMore.
Import Recent RecentFacts Samples.

Lemma addRecentCommand_store (c : Command)
    (config : gmap jsstring (list Command)) :
  type c ≠ Tcommand_dynamic →
  addRecentCommand c config =
    Config_set config recentKey
      (getRecentCommands (addRecentCommand c config)).
Proof.
  intros Hc. unfold addRecentCommand at 2. rewrite decide_False by done.
  rewrite getRecentCommands_set.
  unfold addRecentCommand. by rewrite decide_False.
Qed.

Lemma recent_other_keys_add (c : Command)
    (config : gmap jsstring (list Command)) (key : jsstring) :
  key ≠ recentKey → addRecentCommand c config !! key = config !! key.
Proof.
  intros Hkey. unfold addRecentCommand.
  destruct (decide (type c = Tcommand_dynamic)); [done |].
  unfold Config_set. by rewrite lookup_insert_ne.
Qed.

Lemma recent_other_keys_remove (i : jsstring)
    (config : gmap jsstring (list Command)) (key : jsstring) :
  key ≠ recentKey → removeRecentCommand i config !! key = config !! key.
Proof.
  intros Hkey. unfold removeRecentCommand.
  destruct (decide _); [| done].
  unfold Config_set. by rewrite lookup_insert_ne.
Qed.

(** The list an [addRecentCommand] writes starts with the entry of the
    command. *)
Lemma getRecentCommands_add_cons (c : Command)
    (config : gmap jsstring (list Command)) :
  type c ≠ Tcommand_dynamic →
  ∃ rest,
    getRecentCommands (addRecentCommand c config) = recentEntry c :: rest ∧
    rest = take 2 (dropFirst (id c) (getRecentCommands config)) ∧
    (length rest ≤ 2)%nat.
Proof.
  intros Hc. rewrite getRecentCommands_add by done. simpl.
  set (l1 := dropFirst (id c) (getRecentCommands config)).
  destruct (decide (3 < S (length l1))%nat) as [Hlong | Hshort].
  - exists (take 2 l1). repeat split. rewrite length_take. lia.
  - exists l1. split; [done |]. split; [| lia].
    symmetry. apply take_ge. lia.
Qed.

(** X1. Whatever the store holds, adding a command that is not dynamic
    leaves a list of at most 3 entries that starts with the entry of
    the command and goes on with entries the list had, in their order;
    no other key of the store changes. *)
Theorem addRecentCommand_any_store (c : Command)
    (config : gmap jsstring (list Command)) :
  type c ≠ Tcommand_dynamic →
  head (getRecentCommands (addRecentCommand c config)) = Some (recentEntry c) ∧
  (length (getRecentCommands (addRecentCommand c config)) ≤ 3)%nat ∧
  tail (getRecentCommands (addRecentCommand c config))
    `sublist_of` getRecentCommands config ∧
  ∀ key, key ≠ recentKey → addRecentCommand c config !! key = config !! key.
Proof.
  intros Hc.
  destruct (getRecentCommands_add_cons c config Hc) as (rest & -> & Hrest & Hlen).
  simpl. repeat split; try done.
  - lia.
  - subst rest. etrans; [apply sublist_take | apply dropFirst_sublist].
  - intros key. apply recent_other_keys_add.
Qed.

Lemma addRecentCommand_any_store_witness :
  type tagW ≠ Tcommand_dynamic ∧
  head (getRecentCommands
          (addRecentCommand tagW
             (applyOps [Add noteX; Add noteY; Add noteZ] ∅)))
    = Some (recentEntry tagW) ∧
  (length (getRecentCommands
             (addRecentCommand tagW
                (applyOps [Add noteX; Add noteY; Add noteZ] ∅))) ≤ 3)%nat.
Proof.
  assert (Hc : type tagW ≠ Tcommand_dynamic) by (vm_compute; discriminate).
  split; [exact Hc |].
  destruct (addRecentCommand_any_store tagW
              (applyOps [Add noteX; Add noteY; Add noteZ] ∅) Hc)
    as (Hhead & Hlen & _).
  split; [exact Hhead | exact Hlen].
Defined.

(** X2. Adding the same command twice in a row is the same as adding it
    once: the second call leaves the whole store as the first one made
    it. *)
Theorem addRecentCommand_idempotent (c : Command)
    (config : gmap jsstring (list Command)) :
  addRecentCommand c (addRecentCommand c config) = addRecentCommand c config.
Proof.
  destruct (decide (type c = Tcommand_dynamic)) as [Hdyn | Hc].
  { unfold addRecentCommand. by rewrite !decide_True. }
  assert (Hlist :
    getRecentCommands (addRecentCommand c (addRecentCommand c config)) =
    getRecentCommands (addRecentCommand c config)).
  { destruct (getRecentCommands_add_cons c (addRecentCommand c config) Hc)
      as (rest' & -> & Hrest' & _).
    destruct (getRecentCommands_add_cons c config Hc) as (rest & Heq & _ & Hlen).
    rewrite Heq in Hrest' |- *. f_equal. subst rest'. simpl.
    rewrite decide_True by done. apply take_ge. lia. }
  rewrite (addRecentCommand_store c (addRecentCommand c config) Hc), Hlist.
  unfold Config_set. apply insert_id.
  rewrite (addRecentCommand_store c config Hc) at 1.
  unfold Config_set. by rewrite lookup_insert_eq.
Qed.

(** X3. Removing an id that the cache does not hold leaves the whole
    store as it is. *)
Theorem removeRecentCommand_absent (i : jsstring)
    (config : gmap jsstring (list Command)) :
  i ∉ id <$> getRecentCommands config →
  removeRecentCommand i config = config.
Proof.
  intros Hno. unfold removeRecentCommand.
  rewrite decide_False; [done |]. by rewrite findIndex_found_iff.
Qed.

Lemma removeRecentCommand_absent_witness :
  (str "w" ∉ id <$> getRecentCommands (applyOps [Add noteX; Add noteY] ∅)) ∧
  removeRecentCommand (str "w") (applyOps [Add noteX; Add noteY] ∅)
  = applyOps [Add noteX; Add noteY] ∅.
Proof.
  assert (Hno : str "w" ∉
            id <$> getRecentCommands (applyOps [Add noteX; Add noteY] ∅)).
  { vm_compute. intros Hin.
    repeat (apply elem_of_cons in Hin as [Heq | Hin]; [discriminate Heq |]).
    by apply elem_of_nil in Hin. }
  split; [exact Hno |].
  apply (removeRecentCommand_absent (str "w")
           (applyOps [Add noteX; Add noteY] ∅) Hno).
Defined.

(** X4. On a cache whose entries have distinct ids, removing an id
    leaves exactly the entries of the other ids, in their order, and
    removing it once more changes nothing. *)
Theorem removeRecentCommand_distinct (i : jsstring)
    (config : gmap jsstring (list Command)) :
  NoDup (id <$> getRecentCommands config) →
  getRecentCommands (removeRecentCommand i config) =
    filter (λ d, id d ≠ i) (getRecentCommands config) ∧
  removeRecentCommand i (removeRecentCommand i config) =
    removeRecentCommand i config.
Proof.
  intros Hnd.
  assert (Hlist : getRecentCommands (removeRecentCommand i config) =
                  filter (λ d, id d ≠ i) (getRecentCommands config)).
  { rewrite getRecentCommands_remove. by apply dropFirst_filter. }
  split; [done |]. apply removeRecentCommand_absent. rewrite Hlist.
  intros Hin. apply list_elem_of_fmap in Hin as (d & Hid & Hd).
  apply list_elem_of_filter in Hd as [Hne _]. by apply Hne.
Qed.

Lemma removeRecentCommand_distinct_witness :
  NoDup (id <$> getRecentCommands (applyOps [Add noteX; Add noteY] ∅)) ∧
  id <$> getRecentCommands
           (removeRecentCommand (str "y") (applyOps [Add noteX; Add noteY] ∅))
  = [str "x"].
Proof.
  assert (Hnd : NoDup
            (id <$> getRecentCommands (applyOps [Add noteX; Add noteY] ∅))).
  { apply bool_decide_unpack with (dec := NoDup_dec _). vm_compute. exact I. }
  split; [exact Hnd |].
  destruct (removeRecentCommand_distinct (str "y")
              (applyOps [Add noteX; Add noteY] ∅) Hnd) as [-> _].
  vm_compute. reflexivity.
Defined.

(** X5. Adding a command whose id the cache does not hold and removing
    it again keeps the two most recent entries of the cache: the list is
    restored when it had at most two entries, and its third entry is
    lost when it had three. *)
Theorem add_then_remove (c : Command)
    (config : gmap jsstring (list Command)) :
  type c ≠ Tcommand_dynamic →
  id c ∉ id <$> getRecentCommands config →
  getRecentCommands (removeRecentCommand (id c) (addRecentCommand c config))
  = take 2 (getRecentCommands config).
Proof.
  intros Hc Hnew. rewrite getRecentCommands_remove.
  destruct (getRecentCommands_add_cons c config Hc) as (rest & -> & -> & _).
  simpl. rewrite decide_True by done. by rewrite dropFirst_absent.
Qed.

Lemma add_then_remove_witness :
  type tagW ≠ Tcommand_dynamic ∧
  (id tagW ∉
    id <$> getRecentCommands (applyOps [Add noteX; Add noteY; Add noteZ] ∅)) ∧
  id <$> getRecentCommands
           (removeRecentCommand (id tagW)
              (addRecentCommand tagW
                 (applyOps [Add noteX; Add noteY; Add noteZ] ∅)))
  = [str "z"; str "y"].
Proof.
  assert (Hc : type tagW ≠ Tcommand_dynamic) by (vm_compute; discriminate).
  assert (Hnew : id tagW ∉
            id <$> getRecentCommands
                     (applyOps [Add noteX; Add noteY; Add noteZ] ∅)).
  { vm_compute. intros Hin.
    repeat (apply elem_of_cons in Hin as [Heq | Hin]; [discriminate Heq |]).
    by apply elem_of_nil in Hin. }
  split; [exact Hc |]. split; [exact Hnew |].
  rewrite (add_then_remove tagW
             (applyOps [Add noteX; Add noteY; Add noteZ] ∅) Hc Hnew).
  vm_compute. reflexivity.
Defined.

(** The shape of an entry that [addRecentCommand] writes. *)
Lemma persisted_step (op : CacheOp) (config : gmap jsstring (list Command)) :
  Forall (λ c, group c = recent ∧ highlightedTitle c = None ∧
               type c ≠ Tcommand_dynamic) (getRecentCommands config) →
  Forall (λ c, group c = recent ∧ highlightedTitle c = None ∧
               type c ≠ Tcommand_dynamic)
    (getRecentCommands (applyOp config op)).
Proof.
  intros Hall. destruct op as [c | i]; simpl.
  - destruct (decide (type c = Tcommand_dynamic)) as [Hdyn | Hc].
    + unfold addRecentCommand. by rewrite decide_True.
    + destruct (getRecentCommands_add_cons c config Hc) as (rest & -> & -> & _).
      constructor; [done |].
      eapply Forall_sublist; [| done].
      etrans; [apply sublist_take | apply dropFirst_sublist].
  - rewrite getRecentCommands_remove.
    eapply Forall_sublist; [apply dropFirst_sublist | done].
Qed.

(** X6. After any sequence of calls that starts with an empty cache,
    every persisted entry is of the group ["recent"], has no highlighted
    title and is not a dynamic command. *)
Theorem persisted_entries (ops : list CacheOp)
    (config : gmap jsstring (list Command)) :
  getRecentCommands config = [] →
  Forall (λ c, group c = recent ∧ highlightedTitle c = None ∧
               type c ≠ Tcommand_dynamic)
    (getRecentCommands (applyOps ops config)).
Proof.
  intros Hempty. induction ops as [|op ops IH] using rev_ind.
  - simpl. rewrite Hempty. constructor.
  - unfold applyOps. rewrite foldl_snoc. by apply persisted_step.
Qed.

Lemma persisted_entries_witness :
  getRecentCommands (∅ : gmap jsstring (list Command)) = [] ∧
  Forall (λ c, group c = recent ∧ highlightedTitle c = None ∧
               type c ≠ Tcommand_dynamic)
    (getRecentCommands
       (applyOps [Add noteX; Add dynamicX; Remove (str "y"); Add tagW] ∅)).
Proof.
  split; [reflexivity |].
  apply (persisted_entries
           [Add noteX; Add dynamicX; Remove (str "y"); Add tagW] ∅).
  reflexivity.
Defined.

End RecentMore.

(** ** The cursor *)

Module NavMore.
Import Nav Pointer NavFacts Samples MoreSamples.

Lemma moveSelectionDown_row (commands : list Command) (s : Coords.t) :
  0 ≤ Coords.y s < Z.of_nat (length commands) →
  ∃ current below,
    index commands (Coords.y s) = Some current ∧
    index commands ((Coords.y s + 1) `mod` Z.of_nat (length commands))
      = Some below ∧
    moveSelectionDown s commands =
      Normal {| Coords.x :=
                  if decide (group current = recent ∧ group below = recent)
                  then Coords.x s else 0;
                Coords.y := (Coords.y s + 1) `mod` Z.of_nat (length commands) |}.
Proof.
  intros Hrow. set (N := Z.of_nat (length commands)) in *.
  assert (Hdown : 0 ≤ (Coords.y s + 1) `mod` N < N)
    by (apply Z.mod_pos_bound; lia).
  destruct (index_in_range commands _ Hrow) as [current Hcur].
  destruct (index_in_range commands _ Hdown) as [below Hbelow].
  exists current, below. repeat split; try done.
  unfold moveSelectionDown. rewrite Hcur. fold N.
  rewrite Z.rem_mod_nonneg by lia. rewrite Hbelow.
  destruct (decide (group current = recent)) as [Hc | Hc].
  - destruct (decide (group below = recent)) as [Hb | Hb].
    + by rewrite decide_True.
    + rewrite decide_False; [done | tauto].
  - rewrite decide_False; [done | tauto].
Qed.

Lemma moveSelectionUp_row (commands : list Command) (s : Coords.t) :
  0 ≤ Coords.y s < Z.of_nat (length commands) →
  ∃ current above,
    index commands (Coords.y s) = Some current ∧
    index commands
      ((Coords.y s - 1 + Z.of_nat (length commands))
         `mod` Z.of_nat (length commands)) = Some above ∧
    moveSelectionUp s commands =
      Normal {| Coords.x :=
                  if decide (group current = recent ∧ group above = recent)
                  then Coords.x s else 0;
                Coords.y := (Coords.y s - 1 + Z.of_nat (length commands))
                              `mod` Z.of_nat (length commands) |}.
Proof.
  intros Hrow. set (N := Z.of_nat (length commands)) in *.
  assert (Hup : 0 ≤ (Coords.y s - 1 + N) `mod` N < N)
    by (apply Z.mod_pos_bound; lia).
  destruct (index_in_range commands _ Hrow) as [current Hcur].
  destruct (index_in_range commands _ Hup) as [above Habove].
  exists current, above. repeat split; try done.
  unfold moveSelectionUp. rewrite Hcur. fold N.
  rewrite Z.rem_mod_nonneg by lia. rewrite Habove.
  destruct (decide (group current = recent)) as [Hc | Hc].
  - destruct (decide (group above = recent)) as [Ha | Ha].
    + by rewrite decide_True.
    + rewrite decide_False; [done | tauto].
  - rewrite decide_False; [done | tauto].
Qed.

Lemma succ_mod_pred (y N : Z) :
  0 ≤ y < N → ((y + 1) `mod` N - 1 + N) `mod` N = y.
Proof.
  intros Hy. destruct (decide (y + 1 = N)) as [Heq | Hne].
  - rewrite Heq, Z.mod_same by lia.
    replace (0 - 1 + N) with (N - 1) by lia.
    rewrite Z.mod_small by lia. lia.
  - rewrite (Z.mod_small (y + 1)) by lia.
    replace (y + 1 - 1 + N) with (y + 1 * N) by lia.
    rewrite Z.mod_add by lia. apply Z.mod_small. lia.
Qed.

Lemma pred_mod_succ (y N : Z) :
  0 ≤ y < N → ((y - 1 + N) `mod` N + 1) `mod` N = y.
Proof.
  intros Hy. destruct (decide (y = 0)) as [-> | Hne].
  - replace (0 - 1 + N) with (N - 1) by lia.
    rewrite (Z.mod_small (N - 1)) by lia.
    replace (N - 1 + 1) with N by lia. apply Z.mod_same. lia.
  - replace (y - 1 + N) with (y - 1 + 1 * N) by lia.
    rewrite Z.mod_add by lia. rewrite (Z.mod_small (y - 1)) by lia.
    replace (y - 1 + 1) with y by lia. apply Z.mod_small. lia.
Qed.

(** X7. A cursor on a row of the list comes back to its row when it is
    moved down and then up, and when it is moved up and then down. *)
Theorem down_up_same_row (commands : list Command) (s : Coords.t) :
  0 ≤ Coords.y s < Z.of_nat (length commands) →
  (∃ s1 s2, moveSelectionDown s commands = Normal s1 ∧
            moveSelectionUp s1 commands = Normal s2 ∧
            Coords.y s2 = Coords.y s) ∧
  (∃ s1 s2, moveSelectionUp s commands = Normal s1 ∧
            moveSelectionDown s1 commands = Normal s2 ∧
            Coords.y s2 = Coords.y s).
Proof.
  intros Hrow. set (N := Z.of_nat (length commands)) in *. split.
  - destruct (moveSelectionDown_row commands s Hrow)
      as (current & below & _ & _ & Hdown).
    eexists. rewrite Hdown.
    match goal with |- context [Normal ?s1 = Normal _] => set (t := s1) end.
    assert (Ht : 0 ≤ Coords.y t < N) by (apply Z.mod_pos_bound; lia).
    destruct (moveSelectionUp_row commands t Ht) as (c' & a' & _ & _ & Hup).
    eexists. split; [done |]. split; [exact Hup |].
    simpl. by apply succ_mod_pred.
  - destruct (moveSelectionUp_row commands s Hrow)
      as (current & above & _ & _ & Hup).
    eexists. rewrite Hup.
    match goal with |- context [Normal ?s1 = Normal _] => set (t := s1) end.
    assert (Ht : 0 ≤ Coords.y t < N) by (apply Z.mod_pos_bound; lia).
    destruct (moveSelectionDown_row commands t Ht) as (c' & b' & _ & _ & Hdown).
    eexists. split; [done |]. split; [exact Hdown |].
    simpl. by apply pred_mod_succ.
Qed.

Lemma down_up_same_row_witness :
  0 ≤ 2 < Z.of_nat (length scenarioList) ∧
  ∃ s1 s2,
    moveSelectionDown {| Coords.x := 0; Coords.y := 2 |} scenarioList
      = Normal s1 ∧
    moveSelectionUp s1 scenarioList = Normal s2 ∧ Coords.y s2 = 2.
Proof.
  assert (Hrow : 0 ≤ 2 < Z.of_nat (length scenarioList)) by (simpl; lia).
  split; [exact Hrow |].
  exact (proj1 (down_up_same_row scenarioList
                  {| Coords.x := 0; Coords.y := 2 |} Hrow)).
Defined.

(** X8. The four functions that move the selection keep the cursor
    valid: from a cursor that is on a row of the list, and on the remove
    button only if the row is of the group ["recent"], each of them
    returns such a cursor. *)
Theorem moves_keep_cursor_valid (commands : list Command) (s : Coords.t) :
  validCursor commands s →
  (∃ s', moveSelectionDown s commands = Normal s' ∧ validCursor commands s') ∧
  (∃ s', moveSelectionUp s commands = Normal s' ∧ validCursor commands s') ∧
  (∃ s', moveSelectionRight s commands = Normal s' ∧ validCursor commands s') ∧
  (∃ s', moveSelectionLeft s commands = Normal s' ∧ validCursor commands s').
Proof.
  intros [Hrow Hcol]. set (N := Z.of_nat (length commands)) in *.
  assert (Hvertical : ∀ current other row,
    index commands (Coords.y s) = Some current →
    index commands row = Some other → 0 ≤ row < N →
    validCursor commands
      {| Coords.x :=
           if decide (group current = recent ∧ group other = recent)
           then Coords.x s else 0;
         Coords.y := row |}).
  { intros current other row Hcur Hother Hr. split; [done |]. simpl.
    destruct (decide _) as [[_ Ho] | _]; [| by left].
    destruct Hcol as [? | [? _]]; [by left |]. right. split; [done |].
    by exists other. }
  repeat split.
  - destruct (moveSelectionDown_row commands s Hrow)
      as (current & below & Hcur & Hbelow & ->).
    eexists. split; [done |]. apply Hvertical; try done.
    apply Z.mod_pos_bound. lia.
  - destruct (moveSelectionUp_row commands s Hrow)
      as (current & above & Hcur & Habove & ->).
    eexists. split; [done |]. apply Hvertical; try done.
    apply Z.mod_pos_bound. lia.
  - destruct (index_in_range commands _ Hrow) as [current Hcur].
    unfold moveSelectionRight. rewrite Hcur.
    destruct (decide (group current ≠ recent)) as [Hne | Heq].
    + eexists. split; [done |]. by split.
    + apply dec_stable in Heq. eexists. split; [done |].
      split; [done |]. simpl.
      destruct Hcol as [-> | [-> _]]; [right | by left].
      split; [done |]. by exists current.
  - destruct (index_in_range commands _ Hrow) as [current Hcur].
    unfold moveSelectionLeft. rewrite Hcur.
    destruct (decide (group current ≠ recent)) as [Hne | Heq].
    + eexists. split; [done |]. by split.
    + apply dec_stable in Heq. eexists. split; [done |].
      split; [done |]. simpl.
      destruct Hcol as [-> | [-> _]]; [right | by left].
      split; [done |]. by exists current.
Qed.

Lemma moves_keep_cursor_valid_witness :
  validCursor scenarioList {| Coords.x := 1; Coords.y := 1 |} ∧
  ∃ s', moveSelectionDown {| Coords.x := 1; Coords.y := 1 |} scenarioList
          = Normal s' ∧ validCursor scenarioList s'.
Proof.
  assert (Hvalid : validCursor scenarioList {| Coords.x := 1; Coords.y := 1 |}).
  { split; [simpl; lia |]. right. split; [reflexivity |].
    exists recentB. split; reflexivity. }
  split; [exact Hvalid |].
  exact (proj1 (moves_keep_cursor_valid scenarioList
                  {| Coords.x := 1; Coords.y := 1 |} Hvalid)).
Defined.

(** X9. On a row of the group ["recent"], [moveSelectionRight] and
    [moveSelectionLeft] both go to the other of the two columns, so that
    two moves to either side bring the cursor back. *)
Theorem sideways_on_recent_row (commands : list Command) (s : Coords.t)
    (current : Command) :
  index commands (Coords.y s) = Some current →
  group current = recent →
  Coords.x s = 0 ∨ Coords.x s = 1 →
  moveSelectionRight s commands =
    Normal {| Coords.x := 1 - Coords.x s; Coords.y := Coords.y s |} ∧
  moveSelectionLeft s commands =
    Normal {| Coords.x := 1 - Coords.x s; Coords.y := Coords.y s |} ∧
  moveSelectionRight {| Coords.x := 1 - Coords.x s; Coords.y := Coords.y s |}
    commands = Normal s ∧
  moveSelectionLeft {| Coords.x := 1 - Coords.x s; Coords.y := Coords.y s |}
    commands = Normal s.
Proof.
  intros Hcur Hgroup Hcol.
  unfold moveSelectionRight, moveSelectionLeft. simpl. rewrite Hcur.
  repeat (rewrite decide_False by (intros Hne; by apply Hne)).
  destruct s as [x y]. simpl in *.
  by destruct Hcol as [-> | ->].
Qed.

Lemma sideways_on_recent_row_witness :
  index scenarioList 1 = Some recentB ∧ group recentB = recent ∧
  moveSelectionRight {| Coords.x := 1; Coords.y := 1 |} scenarioList
    = Normal {| Coords.x := 0; Coords.y := 1 |} ∧
  moveSelectionLeft {| Coords.x := 1; Coords.y := 1 |} scenarioList
    = Normal {| Coords.x := 0; Coords.y := 1 |}.
Proof.
  split; [reflexivity |]. split; [reflexivity |].
  destruct (sideways_on_recent_row scenarioList
              {| Coords.x := 1; Coords.y := 1 |} recentB
              eq_refl eq_refl (or_intror eq_refl))
    as (Hright & Hleft & _).
  split; [exact Hright | exact Hleft].
Defined.

(** X10. [Enter] on a row that has a command, with the cursor not on the
    remove button, invokes the action of the command if it has one,
    hands the command to [addRecentCommand], calls [onClose] once and
    moves the cursor to (0, 0); no array changes. A command that is not
    dynamic is the first recent command afterwards, and a dynamic command
    leaves the store alone. *)
Theorem enter_on_command (COMMANDS : list Registry.Entry) (d : Dialog)
    (command : Command) :
  index (heap d (commands d)) (Coords.y (selected d)) = Some command →
  Coords.x (selected d) ≠ 1 →
  ∃ d',
    onKeyDown COMMANDS Enter d = Normal d' ∧
    selected d' = origin ∧
    closed d' = S (closed d) ∧
    heap d' = heap d ∧ commands d' = commands d ∧ next d' = next d ∧
    invoked d' =
      match getCommandAction COMMANDS (id command) (type command) with
      | Some action => action (id command) :: invoked d
      | None => invoked d
      end ∧
    config d' = Recent.addRecentCommand command (config d) ∧
    (type command ≠ Tcommand_dynamic →
     head (Recent.getRecentCommands (config d'))
       = Some (Recent.recentEntry command)) ∧
    (type command = Tcommand_dynamic → config d' = config d).
Proof.
  intros Hcommand Hcol. eexists. split.
  { unfold onKeyDown. rewrite Hcommand. rewrite decide_False by done.
    reflexivity. }
  simpl. repeat split.
  - by destruct (getCommandAction _ _ _).
  - intros Hc. destruct (RecentMore.getRecentCommands_add_cons
                           command (config d) Hc) as (rest & -> & _).
    done.
  - intros Hdyn. unfold Recent.addRecentCommand. by rewrite decide_True.
Qed.

Lemma enter_on_command_witness :
  index (heap dialogOnLastRow (commands dialogOnLastRow))
        (Coords.y (selected dialogOnLastRow)) = Some noteC ∧
  Coords.x (selected dialogOnLastRow) ≠ 1 ∧
  ∃ d',
    onKeyDown registry6 Enter dialogOnLastRow = Normal d' ∧
    selected d' = origin ∧
    closed d' = 1%nat ∧
    invoked d' = [OpenSession (str "c")] ∧
    id <$> Recent.getRecentCommands (config d')
      = [str "c"; str "a"; str "b"].
Proof.
  assert (Hcol : Coords.x (selected dialogOnLastRow) ≠ 1)
    by (simpl; discriminate).
  split; [reflexivity |]. split; [exact Hcol |].
  destruct (enter_on_command registry6 dialogOnLastRow noteC eq_refl Hcol)
    as (d' & Hkey & Hsel & Hclosed & _ & _ & _ & Hinv & Hconfig & _).
  exists d'. split; [exact Hkey |]. split; [exact Hsel |].
  split; [exact Hclosed |]. split; [exact Hinv |].
  rewrite Hconfig. vm_compute. reflexivity.
Defined.

(** X11. A click on the button of a command does what [Enter] does with
    the cursor on the command of this row, but for the cursor, which a
    click leaves where it is. *)
Theorem click_command_as_enter (COMMANDS : list Registry.Entry)
    (index : nat) (d d' : Dialog) (x : Z) :
  onClickCommand COMMANDS index d = Some d' →
  x ≠ 1 →
  selected d' = selected d ∧
  onKeyDown COMMANDS Enter
    (setSelected {| Coords.x := x; Coords.y := Z.of_nat index |} d)
  = Normal (setSelected origin d').
Proof.
  unfold onClickCommand, onKeyDown. simpl. intros Hclick Hx.
  unfold JS.index. simpl. rewrite decide_True by lia. rewrite Nat2Z.id.
  destruct (heap d (commands d) !! index) as [command|]; [| done].
  injection Hclick as <-. rewrite decide_False by done. done.
Qed.

Lemma click_command_as_enter_witness :
  (∃ d', onClickCommand registry6 2 dialogOnLastRow = Some d' ∧
         selected d' = selected dialogOnLastRow ∧
         onKeyDown registry6 Enter
           (setSelected {| Coords.x := 0; Coords.y := 2 |} dialogOnLastRow)
         = Normal (setSelected origin d')) ∧
  (0 : Z) ≠ 1.
Proof.
  assert (Hx : (0 : Z) ≠ 1) by discriminate.
  split; [| exact Hx]. eexists. split; [reflexivity |].
  apply (click_command_as_enter registry6 2 dialogOnLastRow _ 0 eq_refl Hx).
Defined.

(** X12. A click on the button that removes a recent command does what
    [Enter] does with the cursor on this button, but for the cursor,
    which a click leaves where it is. *)
Theorem click_remove_as_enter (COMMANDS : list Registry.Entry)
    (index : nat) (d d' : Dialog) :
  onClickRemove index d = Some d' →
  selected d' = selected d ∧
  onKeyDown COMMANDS Enter
    (setSelected {| Coords.x := 1; Coords.y := Z.of_nat index |} d)
  = Normal (setSelected origin d').
Proof.
  unfold onClickRemove, onKeyDown. simpl. intros Hclick.
  unfold JS.index. simpl. rewrite decide_True by lia. rewrite Nat2Z.id.
  destruct (heap d (commands d) !! index) as [command|]; [| done].
  destruct (decide (group command = recent)); [| done].
  by injection Hclick as <-.
Qed.

Lemma click_remove_as_enter_witness :
  ∃ d', onClickRemove 0 dialogOnLastRow = Some d' ∧
        selected d' = selected dialogOnLastRow ∧
        onKeyDown registry6 Enter
          (setSelected {| Coords.x := 1; Coords.y := 0 |} dialogOnLastRow)
        = Normal (setSelected origin d').
Proof.
  eexists. split; [reflexivity |].
  apply (click_remove_as_enter registry6 0 dialogOnLastRow _ eq_refl).
Defined.

(** X13. A click on a remove button with the cursor on the last row of
    the list leaves the cursor on a row that the shorter list does not
    have: the four keys that move the selection then raise a
    [TypeError], and [Enter] does nothing. *)
Theorem click_remove_strands_cursor (COMMANDS : list Registry.Entry)
    (index : nat) (d d' : Dialog) :
  onClickRemove index d = Some d' →
  Coords.y (selected d) = Z.of_nat (length (heap d (commands d))) - 1 →
  onKeyDown COMMANDS ArrowDown d' = TypeError ∧
  onKeyDown COMMANDS ArrowUp d' = TypeError ∧
  onKeyDown COMMANDS ArrowRight d' = TypeError ∧
  onKeyDown COMMANDS ArrowLeft d' = TypeError ∧
  onKeyDown COMMANDS Enter d' = Normal d'.
Proof.
  unfold onClickRemove. intros Hclick Hlast.
  destruct (heap d (commands d) !! index) as [command|] eqn:Hcommand; [| done].
  destruct (decide (group command = recent)); [| done].
  injection Hclick as <-.
  assert (Hnone : JS.index (filter (λ c, id c ≠ id command)
                              (heap d (commands d)))
                    (Coords.y (selected d)) = None).
  { unfold JS.index. destruct (decide _); [| done].
    apply lookup_ge_None.
    assert (length (filter (λ c, id c ≠ id command) (heap d (commands d)))
            < length (heap d (commands d)))%nat; [| lia].
    apply (length_filter_lt _ _ command).
    - by eapply list_elem_of_lookup_2.
    - intros Hne. by apply Hne. }
  unfold onKeyDown, moveSelectionDown, moveSelectionUp, moveSelectionRight,
    moveSelectionLeft. simpl.
  rewrite fn_lookup_insert, Hnone. by repeat split.
Qed.

Lemma click_remove_strands_cursor_witness :
  ∃ d', onClickRemove 0 dialogOnLastRow = Some d' ∧
        Coords.y (selected dialogOnLastRow)
          = Z.of_nat (length (heap dialogOnLastRow
                                (commands dialogOnLastRow))) - 1 ∧
        onKeyDown registry6 ArrowDown d' = TypeError.
Proof.
  eexists. split; [reflexivity |]. split; [reflexivity |].
  exact (proj1 (click_remove_strands_cursor registry6 0 dialogOnLastRow _
                  eq_refl eq_refl)).
Defined.

End NavMore.

(** ** The search *)

Module SearchFacts.
Import Query Search QueryFacts Samples MoreSamples.

Lemma trimStart_whitespace (s : jsstring) :
  whitespace s → trimStart s = [].
Proof. induction 1 as [|c s Hc _ IH]; simpl; [done | by rewrite Hc]. Qed.

Lemma trim_whitespace (s : jsstring) : whitespace s → trim s = [].
Proof.
  intros Hs. unfold trim. by rewrite (trimStart_whitespace s Hs).
Qed.

Lemma trim_nil_whitespace (s : jsstring) : trim s = [] → whitespace s.
Proof.
  intros Hnil. destruct (trim_isTrimOf s) as (pre & post & Hs & Hpre & Hpost & _).
  rewrite Hnil in Hs. rewrite Hs. apply Forall_app. by split.
Qed.

Lemma forallb_whitespace (s : jsstring) :
  forallb isWhiteSpace s = true ↔ whitespace s.
Proof.
  unfold whitespace. rewrite forallb_forall, Forall_forall.
  split; intros H c Hc; apply H; by apply list_elem_of_In.
Qed.

(** A string of whitespace does not start with the sentinel. *)
Lemma whitespace_search_mode (s : jsstring) :
  whitespace s → isCommandMode s = false.
Proof.
  intros Hs. destruct (isCommandMode s) eqn:Hmode; [| done].
  apply isCommandMode_iff in Hmode as [rest ->].
  by inversion Hs.
Qed.

(** X14. A query that does not start with [>] is answered from the
    open sessions when it consists of whitespace only (the empty query
    included), without a lookup in the database; otherwise the four
    lookups get the query without the whitespace around it, which is
    not empty. *)
Theorem search_in_search_mode (quality : jsstring → jsstring → nat)
    (COMMANDS : list Registry.Entry) (config : gmap jsstring (list Command))
    (dataTypesCamelCase : ItemType → jsstring) (sessions : list Session)
    (db : Lookup) (query : jsstring) :
  isCommandMode query = false →
  search quality COMMANDS config dataTypesCamelCase sessions db query =
    (if forallb isWhiteSpace query
     then getSessionsAsCommands (dataTypesCamelCase Inote) sessions
     else dbSearch dataTypesCamelCase db (trim query)) ∧
  (forallb isWhiteSpace query = false → trim query ≠ []).
Proof.
  intros Hmode. unfold search, prepareQuery. rewrite Hmode. split.
  - destruct (forallb isWhiteSpace query) eqn:Hws.
    + apply forallb_whitespace in Hws.
      rewrite (trim_whitespace query Hws). by rewrite decide_True.
    + rewrite decide_False; [done |].
      destruct (trim query) eqn:Htrim; [| simpl; lia].
      apply trim_nil_whitespace, forallb_whitespace in Htrim. congruence.
  - intros Hws Htrim.
    apply trim_nil_whitespace, forallb_whitespace in Htrim. congruence.
Qed.

Lemma search_in_search_mode_witness :
  isCommandMode (str "  ") = false ∧
  search flat registry6 ∅ labels [sessionOpen; sessionNew] smallDb (str "  ")
    = [ mk "n1" "Plan" "note" Tnote ] ∧
  isCommandMode (str " wo ") = false ∧
  Cmd.id <$> search flat registry6 ∅ labels [sessionOpen; sessionNew] smallDb
               (str " wo ")
    = [str "n1"; str "t1"].
Proof.
  split; [reflexivity |]. split.
  - rewrite (proj1 (search_in_search_mode flat registry6 ∅ labels
                      [sessionOpen; sessionNew] smallDb (str "  ") eq_refl)).
    reflexivity.
  - split; [reflexivity |].
    rewrite (proj1 (search_in_search_mode flat registry6 ∅ labels
                      [sessionOpen; sessionNew] smallDb (str " wo ") eq_refl)).
    reflexivity.
Defined.

(** X15. What a query that does not start with [>] finds is a note, a
    notebook, a tag or a reminder with no highlighted title: it has an
    action whatever the registry holds, and [addRecentCommand] records
    it. *)
Theorem search_mode_results (quality : jsstring → jsstring → nat)
    (COMMANDS : list Registry.Entry) (config : gmap jsstring (list Command))
    (dataTypesCamelCase : ItemType → jsstring) (sessions : list Session)
    (db : Lookup) (query : jsstring) (c : Command) :
  isCommandMode query = false →
  c ∈ search quality COMMANDS config dataTypesCamelCase sessions db query →
  Cmd.type c ∈ [Tnote; Tnotebook; Ttag; Treminder] ∧
  Cmd.highlightedTitle c = None ∧
  is_Some (Nav.getCommandAction COMMANDS (Cmd.id c) (Cmd.type c)) ∧
  head (Recent.getRecentCommands (Recent.addRecentCommand c config))
    = Some (Recent.recentEntry c).
Proof.
  intros Hmode Hc. unfold search in Hc. rewrite Hmode in Hc.
  assert (Hshape : Cmd.type c ∈ [Tnote; Tnotebook; Ttag; Treminder] ∧
                   Cmd.highlightedTitle c = None).
  { destruct (decide _) as [_ | _].
    - unfold getSessionsAsCommands in Hc.
      apply list_elem_of_fmap in Hc as (s & -> & _). simpl.
      split; [apply list_elem_of_here | done].
    - unfold dbSearch in Hc.
      apply list_elem_of_fmap in Hc as (item & -> & _). simpl.
      split; [| done].
      destruct (item_type item); simpl; repeat constructor. }
  destruct Hshape as [Htype Hnone].
  assert (Hdyn : Cmd.type c ≠ Tcommand_dynamic ∧ Cmd.type c ≠ Tcommand).
  { split; intros Heq; rewrite Heq in Htype;
      repeat (apply elem_of_cons in Htype as [Htype | Htype];
              [discriminate Htype |]);
      by apply elem_of_nil in Htype. }
  destruct Hdyn as [Hdyn Hcmd].
  split; [done |]. split; [done |]. split.
  - unfold Nav.getCommandAction. by destruct (Cmd.type c).
  - destruct (RecentMore.getRecentCommands_add_cons c config Hdyn)
      as (rest & -> & _). done.
Qed.

Lemma search_mode_results_witness :
  isCommandMode (str " wo ") = false ∧
  mk "t1" "work" "tag" Ttag
    ∈ search flat registry6 ∅ labels [sessionOpen; sessionNew] smallDb
        (str " wo ") ∧
  head (Recent.getRecentCommands
          (Recent.addRecentCommand (mk "t1" "work" "tag" Ttag) ∅))
    = Some (Recent.recentEntry (mk "t1" "work" "tag" Ttag)).
Proof.
  assert (Hin : mk "t1" "work" "tag" Ttag
                  ∈ search flat registry6 ∅ labels [sessionOpen; sessionNew]
                      smallDb (str " wo ")).
  { vm_compute. apply list_elem_of_further, list_elem_of_here. }
  split; [reflexivity |]. split; [exact Hin |].
  destruct (search_mode_results flat registry6 ∅ labels
              [sessionOpen; sessionNew] smallDb (str " wo ") _ eq_refl Hin)
    as (_ & _ & _ & Hhead).
  exact Hhead.
Defined.

End SearchFacts.

(** ** The registry and its lookup maps *)

Module MapsFacts.
Import Registry Maps RegistryFacts Samples MoreSamples.

Lemma idMap_snoc {A : Type} (field : Entry → A) (COMMANDS : list Entry)
    (e : Entry) :
  idMap field (COMMANDS ++ [e]) = <[id e := field e]> (idMap field COMMANDS).
Proof. unfold idMap. by rewrite foldl_snoc. Qed.

Lemma lastEntry_snoc (COMMANDS : list Entry) (e : Entry) (i : jsstring) :
  lastEntry (COMMANDS ++ [e]) i =
    if decide (id e = i) then Some e else lastEntry COMMANDS i.
Proof.
  unfold lastEntry. rewrite filter_app.
  destruct (decide (id e = i)) as [He | He].
  - rewrite filter_cons_True by done. rewrite filter_nil. apply last_snoc.
  - rewrite filter_cons_False by done. rewrite filter_nil.
    by rewrite app_nil_r.
Qed.

Lemma lastEntry_is_Some (COMMANDS : list Entry) (i : jsstring) :
  i ∈ id <$> COMMANDS → is_Some (lastEntry COMMANDS i).
Proof.
  induction COMMANDS as [|e l IH] using rev_ind.
  - by intros ?%elem_of_nil.
  - rewrite fmap_app, elem_of_app, lastEntry_snoc. simpl.
    destruct (decide (id e = i)) as [He | He]; [by eexists |].
    intros [Hin | Hin]; [by apply IH |].
    apply list_elem_of_singleton in Hin. congruence.
Qed.

(** X16. [CommandIconMap] and [CommandActionMap] have an entry for
    exactly the ids of the registry, and when several entries of the
    registry share an id, the map holds what the last of them has. *)
Theorem idMap_last_wins {A : Type} (field : Entry → A)
    (COMMANDS : list Entry) (i : jsstring) :
  idMap field COMMANDS !! i = field <$> lastEntry COMMANDS i ∧
  (is_Some (idMap field COMMANDS !! i) ↔ i ∈ id <$> COMMANDS).
Proof.
  assert (Hlookup : idMap field COMMANDS !! i = field <$> lastEntry COMMANDS i).
  { induction COMMANDS as [|e l IH] using rev_ind; [done |].
    rewrite idMap_snoc, lastEntry_snoc, lookup_insert.
    destruct (decide (id e = i)); [done | by rewrite IH]. }
  split; [done |]. rewrite Hlookup, fmap_is_Some. split.
  - intros [e He]. unfold lastEntry in He.
    apply last_Some_elem_of, list_elem_of_filter in He as [<- He].
    apply list_elem_of_fmap. by exists e.
  - apply lastEntry_is_Some.
Qed.

Example action_of_shadowed :
  CommandActionMap Registry.title registryShadowed !! str "a"
  = Some (Value (Some (str "Sign out"))).
Proof. vm_compute. reflexivity. Qed.

Lemma dedupById_split (seen : list jsstring) (l : list Command)
    (c : Command) :
  c ∈ dedupById seen l →
  ∃ l1 l2, l = l1 ++ c :: l2 ∧ (Cmd.id c ∉ seen) ∧ Cmd.id c ∉ Cmd.id <$> l1.
Proof.
  revert seen. induction l as [|d l IH]; intros seen; simpl.
  - by intros ?%elem_of_nil.
  - destruct (decide (Cmd.id d ∈ seen)) as [Hd | Hd].
    + intros (l1 & l2 & -> & Hseen & Hl1)%IH.
      exists (d :: l1), l2. split; [done |]. split; [done |].
      rewrite fmap_cons, not_elem_of_cons. split; [| done]. congruence.
    + rewrite elem_of_cons. intros [-> | Hc].
      * exists [], l. split; [done |]. split; [done |]. apply not_elem_of_nil.
      * apply IH in Hc as (l1 & l2 & -> & Hseen & Hl1).
        apply not_elem_of_cons in Hseen as [Hne Hseen].
        exists (d :: l1), l2. split; [done |]. split; [done |].
        rewrite fmap_cons, not_elem_of_cons. by split.
Qed.

Lemma omap_split {A B : Type} (f : A → option B) (l : list A)
    (l1 l2 : list B) (y : B) :
  omap f l = l1 ++ y :: l2 →
  ∃ pre x post, l = pre ++ x :: post ∧ f x = Some y ∧ omap f pre = l1.
Proof.
  revert l1. induction l as [|a l IH]; intros l1; simpl.
  - by destruct l1.
  - destruct (f a) as [b|] eqn:Ha.
    + destruct l1 as [|b' l1]; simpl.
      * intros [= -> _]. by exists [], a, l.
      * intros [= -> Hl]. destruct (IH l1 Hl) as (pre & x & post & -> & Hx & Hpre).
        exists (a :: pre), x, post. split; [done |]. split; [done |].
        change (omap f (a :: pre))
          with (match f a with
                | Some b0 => b0 :: omap f pre
                | None => omap f pre
                end).
        by rewrite Ha, Hpre.
    + intros Hl. destruct (IH l1 Hl) as (pre & x & post & -> & Hx & Hpre).
      exists (a :: pre), x, post. split; [done |]. split; [done |].
      change (omap f (a :: pre))
        with (match f a with
              | Some b0 => b0 :: omap f pre
              | None => omap f pre
              end).
      by rewrite Ha.
Qed.

(** X17. Every command that [resolveCommands] yields is a command or a
    dynamic command. Its title and its group are those of the first
    entry of its id in the registry that is not excluded, and its
    action and its icon are those of the last entry of its id in the
    registry, excluded or not. *)
Theorem resolved_commands_have_action {A I : Type} (action : Entry → A)
    (icon : Entry → I) (COMMANDS : list Entry) (c : Command) :
  c ∈ resolveCommands COMMANDS →
  (Cmd.type c = Tcommand ∨ Cmd.type c = Tcommand_dynamic) ∧
  (∃ pre first post,
     COMMANDS = pre ++ first :: post ∧
     id first = Cmd.id c ∧
     Forall (λ e', id e' = Cmd.id c → resolveEntry e' = None) pre ∧
     resolveEntry first = Some c ∧
     resolve (title first) = Some (Cmd.title c) ∧
     resolve (group first) = Some (Cmd.group c)) ∧
  ∃ e, lastEntry COMMANDS (Cmd.id c) = Some e ∧
       CommandActionMap action COMMANDS !! Cmd.id c = Some (action e) ∧
       getCommandIcon icon COMMANDS (Cmd.id c) (Cmd.type c)
         = Some (RegistryIcon (icon e)) ∧
       is_Some (Nav.getCommandAction COMMANDS (Cmd.id c) (Cmd.type c)).
Proof.
  rewrite resolveCommands_dedup. intros Hc.
  destruct (dedupById_split [] _ c Hc) as (l1 & l2 & Hl & _ & Hl1).
  destruct (omap_split resolveEntry COMMANDS l1 l2 c Hl)
    as (pre & e0 & post & HCOMMANDS & Hres & Hpre).
  pose proof (resolveEntry_id e0 c Hres) as Hid0.
  assert (Hid : Cmd.id c ∈ id <$> COMMANDS).
  { rewrite HCOMMANDS, Hid0, fmap_app, fmap_cons, elem_of_app, elem_of_cons.
    tauto. }
  assert (Hshape : (Cmd.type c = Tcommand ∨ Cmd.type c = Tcommand_dynamic) ∧
                   resolve (title e0) = Some (Cmd.title c) ∧
                   resolve (group e0) = Some (Cmd.group c)).
  { unfold resolveEntry in Hres.
    destruct (resolve (group e0)), (resolve (title e0)); try done.
    destruct (match hidden e0 with Some f => f () | None => false end);
      [done |].
    injection Hres as <-. simpl. destruct (dynamic e0); auto. }
  destruct Hshape as (Htype & Htitle & Hgroup).
  split; [done |]. split.
  - exists pre, e0, post. split; [done |]. split; [done |].
    split; [| done]. apply Forall_forall. intros e' He' Hid'.
    destruct (resolveEntry e') as [c'|] eqn:Hres'; [| done].
    destruct Hl1. rewrite <- Hpre. apply list_elem_of_fmap. exists c'.
    split; [by rewrite (resolveEntry_id e' c' Hres') |].
    apply list_elem_of_omap. by exists e'.
  - destruct (lastEntry_is_Some COMMANDS (Cmd.id c) Hid) as [e He].
    exists e. split; [done |].
    destruct (idMap_last_wins action COMMANDS (Cmd.id c)) as [Haction _].
    destruct (idMap_last_wins icon COMMANDS (Cmd.id c)) as [Hicon _].
    unfold CommandActionMap, getCommandIcon, CommandIconMap,
      Nav.getCommandAction.
    rewrite Haction, Hicon, He. simpl.
    destruct Htype as [-> | ->]; rewrite decide_True by done;
      by repeat split.
Qed.

(** The title shown is the one of the first entry of the id, the action
    the one of the last: with the title in the place of the action, the
    map holds another title than the command. *)
Lemma resolved_commands_have_action_witness :
  mk "a" "Sign in" "Account" Tcommand ∈ resolveCommands registryTwice ∧
  (∃ pre first post,
     registryTwice = pre ++ first :: post ∧ pre = [] ∧
     resolve (title first) = Some (str "Sign in") ∧
     resolve (group first) = Some (str "Account")) ∧
  CommandActionMap Registry.title registryTwice !! str "a"
  = Some (Value (Some (str "Sign out"))).
Proof.
  assert (Hin : mk "a" "Sign in" "Account" Tcommand
                  ∈ resolveCommands registryTwice).
  { vm_compute. apply list_elem_of_here. }
  split; [exact Hin |].
  destruct (resolved_commands_have_action Registry.title Registry.hidden
              registryTwice _ Hin)
    as (_ & (pre & first & post & HCOMMANDS & Hid & Hpre & _ & Htitle & Hgroup)
        & e & He & Haction & _).
  split.
  - exists pre, first, post. split; [exact HCOMMANDS |].
    split; [| split; [exact Htitle | exact Hgroup]].
    destruct pre as [|e' pre]; [reflexivity |].
    apply Forall_cons in Hpre as [Hfirst _].
    injection HCOMMANDS as <- _.
    specialize (Hfirst eq_refl). discriminate Hfirst.
  - vm_compute in He. injection He as <-. exact Haction.
Defined.

(** X18. Entries added at the end of the registry leave the commands
    resolved from the entries before them as they are, and add the
    commands of their own whose ids are new. *)
Theorem resolveCommands_app (COMMANDS more : list Entry) :
  resolveCommands (COMMANDS ++ more) =
    resolveCommands COMMANDS ++
    dedupById (Cmd.id <$> resolveCommands COMMANDS) (omap resolveEntry more) ∧
  resolveCommands COMMANDS `prefix_of` resolveCommands (COMMANDS ++ more).
Proof.
  assert (Happ : resolveCommands (COMMANDS ++ more) =
    resolveCommands COMMANDS ++
    dedupById (Cmd.id <$> resolveCommands COMMANDS) (omap resolveEntry more)).
  { unfold resolveCommands. by rewrite foldl_app, foldl_resolveStep. }
  split; [done |]. rewrite Happ. by eexists.
Qed.

End MapsFacts.

(** ** Sorting and grouping of any list *)

Module GroupingMore.
Import Grouping GroupingFacts Samples.

Lemma alter_middle {A : Type} (f : A → A) (l : list A) (i : nat) (x : A) :
  l !! i = Some x →
  ∃ l1 l2, l = l1 ++ x :: l2 ∧ alter f i l = l1 ++ f x :: l2 ∧ length l1 = i.
Proof.
  intros Hi. exists (take i l), (drop (S i) l).
  assert (Hlen : length (take i l) = i).
  { rewrite length_take. apply lookup_lt_Some in Hi. lia. }
  split; [by rewrite take_drop_middle |]. split; [| done].
  rewrite <- (take_drop_middle l i x Hi) at 1.
  replace i with (length (take i l) + 0)%nat at 1 by lia.
  by rewrite alter_app_r.
Qed.

(** The three things a turn of the loop of [sortCommands] can do. *)
Lemma sortStep_cases (st : list Command * list bucket) (c : Command) :
  (Cmd.group c = recent ∧ sortStep st c = (st.1 ++ [c], st.2)) ∨
  (Cmd.group c ≠ recent ∧
   Forall (λ b : bucket, Cmd.group b.1 ≠ Cmd.group c) st.2 ∧
   sortStep st c = (st.1, st.2 ++ [(c, [])])) ∨
  (Cmd.group c ≠ recent ∧
   ∃ B1 b B2, st.2 = B1 ++ b :: B2 ∧ Cmd.group b.1 = Cmd.group c ∧
              sortStep st c = (st.1, B1 ++ (b.1, b.2 ++ [c]) :: B2)).
Proof.
  unfold sortStep.
  destruct (decide (Cmd.group c = recent)) as [Hc | Hc]; [by left | right].
  destruct (findIndex_cases
              (λ b : bucket, bool_decide (Cmd.group b.1 = Cmd.group c)) st.2)
    as [[-> Hnone] | (i & b & -> & Hi & Hb)].
  - left. rewrite decide_True by done. repeat split; try done.
    eapply Forall_impl; [exact Hnone |]. intros b Hb Heq. apply Hb.
    by apply bool_decide_eq_true.
  - right. rewrite decide_False by lia. rewrite Nat2Z.id.
    apply bool_decide_eq_true in Hb. split; [done |].
    destruct (alter_middle (λ c0 : bucket, (c0.1, c0.2 ++ [c])) _ _ _ Hi)
      as (B1 & B2 & HB & Halter & _).
    exists B1, b, B2. by rewrite Halter.
Qed.

Lemma bucketItems_snoc (b : bucket) (c : Command) :
  bucketItems (b.1, b.2 ++ [c]) = bucketItems b ++ [c].
Proof. reflexivity. Qed.

(** A turn of the loop puts the command somewhere into the list. *)
Lemma sortStep_Permutation (st : list Command * list bucket) (c : Command) :
  (sortStep st c).1 ++ concat (bucketItems <$> (sortStep st c).2) ≡ₚ
  (st.1 ++ concat (bucketItems <$> st.2)) ++ [c].
Proof.
  destruct (sortStep_cases st c)
    as [[_ ->] | [(_ & _ & ->) | (_ & B1 & b & B2 & HB & _ & ->)]]; simpl.
  - rewrite <- !app_assoc. apply Permutation_app_head, Permutation_app_comm.
  - rewrite fmap_app, concat_app. simpl. by rewrite app_assoc.
  - rewrite HB, !fmap_app, !concat_app, !fmap_cons, !concat_cons.
    rewrite bucketItems_snoc, <- !app_assoc.
    do 3 apply Permutation_app_head. apply Permutation_app_comm.
Qed.

Lemma foldl_sortStep_Permutation (commands : list Command)
    (st : list Command * list bucket) :
  (foldl sortStep st commands).1
    ++ concat (bucketItems <$> (foldl sortStep st commands).2) ≡ₚ
  (st.1 ++ concat (bucketItems <$> st.2)) ++ commands.
Proof.
  revert st. induction commands as [|c commands IH]; intros st; simpl.
  - by rewrite app_nil_r.
  - rewrite IH, sortStep_Permutation. by rewrite <- app_assoc.
Qed.

(** X19. [sortCommands] only reorders: its result is a permutation of
    the commands it is given. *)
Theorem sortCommands_Permutation (commands : list Command) :
  sortCommands commands ≡ₚ commands.
Proof.
  unfold sortCommands. by rewrite foldl_sortStep_Permutation.
Qed.

Lemma filter_group_none (g : jsstring) (l : list Command) :
  Forall (λ c, Cmd.group c ≠ g) l → filter (λ c, Cmd.group c = g) l = [].
Proof.
  induction 1 as [|c l Hc _ IH]; [done |]. by rewrite filter_cons_False.
Qed.

Lemma filter_group_all (g : jsstring) (l : list Command) :
  Forall (λ c, Cmd.group c = g) l → filter (λ c, Cmd.group c = g) l = l.
Proof.
  induction 1 as [|c l Hc _ IH]; [done |].
  rewrite filter_cons_True by done. by rewrite IH.
Qed.

(** The buckets of other groups hold no command of a group. *)
Lemma buckets_other_groups (g : jsstring) (bs : list bucket) :
  Forall (λ b : bucket,
            Cmd.group b.1 ≠ g ∧
            Forall (λ c, Cmd.group c = Cmd.group b.1) b.2) bs →
  Forall (λ c, Cmd.group c ≠ g) (concat (bucketItems <$> bs)).
Proof.
  induction 1 as [|[h t] bs [Hh Ht] _ IH]; [constructor |].
  rewrite fmap_cons, concat_cons. apply Forall_app. split; [| done].
  simpl in *. constructor; [done |].
  eapply Forall_impl; [exact Ht |]. intros c Hc. simpl in Hc. congruence.
Qed.

(** The buckets after a bucket of a state hold other groups than it. *)
Lemma wellBucketed_later (rec : list Command) (B1 B2 : list bucket)
    (b : bucket) :
  wellBucketed (rec, B1 ++ b :: B2) →
  Forall (λ b' : bucket,
            Cmd.group b'.1 ≠ Cmd.group b.1 ∧
            Forall (λ c, Cmd.group c = Cmd.group b'.1) b'.2) B2.
Proof.
  intros (_ & Hbs & Hnd). simpl in *.
  apply Forall_app in Hbs as [_ Hbs]. apply Forall_cons in Hbs as [_ Hbs].
  rewrite fmap_app, fmap_cons in Hnd.
  apply NoDup_app in Hnd as (_ & _ & Hnd). apply NoDup_cons in Hnd as [Hb _].
  apply Forall_forall. intros b' Hb'. rewrite Forall_forall in Hbs.
  split; [| by apply Hbs]. intros Heq. apply Hb. rewrite <- Heq.
  apply list_elem_of_fmap. by exists b'.
Qed.

Lemma sortStep_filter (g : jsstring) (st : list Command * list bucket)
    (c : Command) :
  wellBucketed st →
  filter (λ d, Cmd.group d = g)
    ((sortStep st c).1 ++ concat (bucketItems <$> (sortStep st c).2)) =
  filter (λ d, Cmd.group d = g)
    ((st.1 ++ concat (bucketItems <$> st.2)) ++ [c]).
Proof.
  intros Hst.
  destruct (sortStep_cases st c)
    as [[Hc ->] | [(_ & _ & ->) | (_ & B1 & b & B2 & HB & Hb & ->)]]; simpl.
  - rewrite !filter_app. destruct Hst as (_ & Hbs & _).
    destruct (decide (g = recent)) as [-> | Hg].
    + rewrite (filter_group_none recent (concat _)).
      * by rewrite !app_nil_r.
      * by apply buckets_other_groups.
    + rewrite (filter_cons_False _ c) by congruence.
      by rewrite filter_nil, !app_nil_r.
  - rewrite fmap_app, concat_app. simpl. by rewrite app_assoc.
  - destruct st as [rec bs]. simpl in *. subst bs.
    pose proof (wellBucketed_later rec B1 B2 b Hst) as Hlater.
    rewrite !fmap_app, !concat_app, !fmap_cons, !concat_cons.
    rewrite bucketItems_snoc, !filter_app.
    destruct (decide (g = Cmd.group c)) as [-> | Hg].
    + rewrite (filter_group_none (Cmd.group c) (concat (bucketItems <$> B2))).
      * by rewrite !app_nil_r, <- !app_assoc.
      * apply buckets_other_groups. by rewrite <- Hb.
    + rewrite (filter_cons_False _ c) by congruence.
      by rewrite filter_nil, !app_nil_r.
Qed.

Lemma foldl_sortStep_filter (g : jsstring) (commands : list Command)
    (st : list Command * list bucket) :
  wellBucketed st →
  filter (λ d, Cmd.group d = g)
    ((foldl sortStep st commands).1
       ++ concat (bucketItems <$> (foldl sortStep st commands).2)) =
  filter (λ d, Cmd.group d = g)
    ((st.1 ++ concat (bucketItems <$> st.2)) ++ commands).
Proof.
  revert st. induction commands as [|c commands IH]; intros st Hst; simpl.
  - by rewrite app_nil_r.
  - rewrite IH by by apply wellBucketed_sortStep.
    rewrite filter_app, sortStep_filter by done.
    by rewrite <- filter_app, <- app_assoc.
Qed.

(** X20. [sortCommands] is stable: the commands of every group come in
    the order they had; and the commands of the group ["recent"] come
    first, before every other command. *)
Theorem sortCommands_stable (commands : list Command) :
  (∀ g, filter (λ c, Cmd.group c = g) (sortCommands commands) =
        filter (λ c, Cmd.group c = g) commands) ∧
  ∃ others,
    sortCommands commands =
      filter (λ c, Cmd.group c = recent) commands ++ others ∧
    Forall (λ c, Cmd.group c ≠ recent) others.
Proof.
  assert (Hinit : wellBucketed ([], [])).
  { repeat split; simpl; constructor. }
  assert (Hfilter : ∀ g,
    filter (λ c, Cmd.group c = g) (sortCommands commands) =
    filter (λ c, Cmd.group c = g) commands).
  { intros g. unfold sortCommands.
    by rewrite (foldl_sortStep_filter g commands ([], []) Hinit). }
  split; [done |].
  specialize (Hfilter recent). unfold sortCommands in *.
  set (st := foldl sortStep ([], []) commands) in *.
  assert (Hst : wellBucketed st) by by apply wellBucketed_foldl.
  destruct Hst as (Hrec & Hbs & _).
  pose proof (buckets_other_groups recent st.2 Hbs) as Hothers.
  exists (concat (bucketItems <$> st.2)). split; [| done].
  rewrite <- Hfilter, filter_app.
  rewrite (filter_group_all recent st.1 Hrec).
  by rewrite (filter_group_none recent _ Hothers), app_nil_r.
Qed.

Lemma findIndex_none {A : Type} (p : A → bool) (l : list A) :
  Forall (λ x, p x ≠ true) l → findIndex p l = -1.
Proof.
  intros Hl. unfold findIndex.
  by rewrite (proj2 (list_find_None (λ x, p x = true) l) Hl).
Qed.

Lemma findIndex_first {A : Type} (p : A → bool) (l1 l2 : list A) (x : A) :
  Forall (λ x, p x ≠ true) l1 → p x = true →
  findIndex p (l1 ++ x :: l2) = Z.of_nat (length l1).
Proof.
  intros Hl1 Hx. unfold findIndex.
  rewrite list_find_app_r by by apply list_find_None.
  simpl. rewrite decide_True by done. simpl. f_equal.
Qed.

Lemma foldl_sortStep_recent (rec more : list Command) (bs : list bucket) :
  Forall (λ c, Cmd.group c = recent) more →
  foldl sortStep (rec, bs) more = (rec ++ more, bs).
Proof.
  intros Hmore. revert rec.
  induction Hmore as [|c more Hc _ IH]; intros rec; simpl.
  - by rewrite app_nil_r.
  - unfold sortStep at 2. simpl. rewrite decide_True by done.
    rewrite IH. by rewrite <- app_assoc.
Qed.

Lemma foldl_sortStep_bucket (rec : list Command) (B1 : list bucket)
    (h : Command) (t1 t2 : list Command) :
  Cmd.group h ≠ recent →
  Forall (λ b : bucket, Cmd.group b.1 ≠ Cmd.group h) B1 →
  Forall (λ c, Cmd.group c = Cmd.group h) t2 →
  foldl sortStep (rec, B1 ++ [(h, t1)]) t2 = (rec, B1 ++ [(h, t1 ++ t2)]).
Proof.
  intros Hh HB1 Ht2. revert t1.
  induction Ht2 as [|c t2 Hc _ IH]; intros t1; simpl.
  - by rewrite app_nil_r.
  - unfold sortStep at 2. simpl.
    rewrite decide_False by congruence.
    rewrite (findIndex_first _ B1 [] (h, t1)).
    + rewrite decide_False by lia. rewrite Nat2Z.id.
      replace (length B1) with (length B1 + 0)%nat by lia.
      rewrite alter_app_r. simpl. rewrite IH. by rewrite <- app_assoc.
    + eapply Forall_impl; [exact HB1 |]. intros b Hb Heq. simpl in Heq.
      apply bool_decide_eq_true in Heq. congruence.
    + simpl. by apply bool_decide_eq_true.
Qed.

Lemma foldl_sortStep_buckets (rec : list Command) (B2 B1 : list bucket) :
  wellBucketed (rec, B1 ++ B2) →
  foldl sortStep (rec, B1) (concat (bucketItems <$> B2)) = (rec, B1 ++ B2).
Proof.
  revert B1. induction B2 as [|[h t] B2 IH]; intros B1 Hst.
  - simpl. by rewrite app_nil_r.
  - rewrite fmap_cons, concat_cons, foldl_app.
    destruct Hst as (Hrec & Hbs & Hnd). simpl in Hbs, Hnd.
    assert (Hht : Cmd.group h ≠ recent ∧
                  Forall (λ c, Cmd.group c = Cmd.group h) t).
    { apply Forall_app in Hbs as [_ Hbs].
      by apply Forall_cons in Hbs as [Hht _]. }
    destruct Hht as [Hh Ht].
    assert (HB1 : Forall (λ b : bucket, Cmd.group b.1 ≠ Cmd.group h) B1).
    { rewrite fmap_app, fmap_cons in Hnd.
      apply NoDup_app in Hnd as (_ & Hdisj & _).
      apply Forall_forall. intros b Hb Heq.
      apply (Hdisj (Cmd.group b.1)).
      - apply list_elem_of_fmap. by exists b.
      - simpl. rewrite Heq. apply list_elem_of_here. }
    assert (Hfirst : sortStep (rec, B1) h = (rec, B1 ++ [(h, [])])).
    { unfold sortStep. simpl. rewrite decide_False by done.
      rewrite findIndex_none; [by rewrite decide_True |].
      eapply Forall_impl; [exact HB1 |]. intros b Hb Heq. simpl in Heq.
      apply bool_decide_eq_true in Heq. congruence. }
    change (bucketItems (h, t)) with (h :: t). simpl foldl at 2.
    rewrite Hfirst, (foldl_sortStep_bucket rec B1 h [] t) by done. simpl.
    rewrite (IH (B1 ++ [(h, t)])); [by rewrite <- app_assoc |].
    rewrite <- app_assoc. by repeat split.
Qed.

(** [sortCommands] leaves alone a list that is made of a state of its
    loop. *)
Lemma sortCommands_state (st : list Command * list bucket) :
  wellBucketed st →
  sortCommands (st.1 ++ concat (bucketItems <$> st.2)) =
  st.1 ++ concat (bucketItems <$> st.2).
Proof.
  intros Hst. destruct st as [rec bs]. unfold sortCommands. simpl.
  rewrite foldl_app.
  rewrite (foldl_sortStep_recent [] rec []) by apply Hst. simpl.
  by rewrite (foldl_sortStep_buckets rec bs []).
Qed.

(** X21. Sorting a sorted list changes nothing: [sortCommands] is
    idempotent. *)
Theorem sortCommands_idempotent (commands : list Command) :
  sortCommands (sortCommands commands) = sortCommands commands.
Proof.
  unfold sortCommands at 2 3.
  apply sortCommands_state, wellBucketed_foldl.
  repeat split; simpl; constructor.
Qed.

(** What [grouped] keeps true of its accumulator and the commands it
    has seen. *)
Lemma groupStep_counts (acc : list GroupCount) (seen : list Command)
    (c : Command) :
  NoDup (group <$> acc) →
  (∀ r, r ∈ acc →
        count r = length (filter (λ d, Cmd.group d = group r) seen)) →
  (∀ g, g ∈ group <$> acc ↔ g ∈ Cmd.group <$> seen) →
  NoDup (group <$> groupStep acc c) ∧
  (∀ r, r ∈ groupStep acc c →
        count r = length (filter (λ d, Cmd.group d = group r) (seen ++ [c]))) ∧
  (∀ g, g ∈ group <$> groupStep acc c ↔ g ∈ Cmd.group <$> (seen ++ [c])) ∧
  sum_list_with count (groupStep acc c) = S (sum_list_with count acc).
Proof.
  intros Hnd Hcount Hlabels. unfold groupStep.
  destruct (list_find _ acc) as [[i r0]|] eqn:Hfind.
  - apply list_find_Some in Hfind as (Hi & Hr0 & _).
    destruct (alter_middle
                (λ item, {| group := group item; count := S (count item) |})
                acc i r0 Hi) as (A1 & A2 & Hacc & -> & _).
    subst acc. rewrite !fmap_app, !fmap_cons in *. simpl.
    split; [done |]. split; [| split].
    + intros r Hr. rewrite filter_app, length_app.
      apply elem_of_app in Hr as [Hr | Hr];
        [| apply elem_of_cons in Hr as [-> | Hr]].
      * rewrite filter_cons_False, filter_nil.
        -- simpl. rewrite Nat.add_0_r. apply Hcount.
           apply elem_of_app. by left.
        -- intros Heq. apply NoDup_app in Hnd as (_ & Hdisj & _).
           apply (Hdisj (group r)).
           ++ apply list_elem_of_fmap. by exists r.
           ++ rewrite <- Heq, <- Hr0. apply list_elem_of_here.
      * simpl. rewrite filter_cons_True by done. rewrite filter_nil. simpl.
        rewrite (Hcount r0); [lia |].
        apply elem_of_app. right. apply list_elem_of_here.
      * rewrite filter_cons_False, filter_nil.
        -- simpl. rewrite Nat.add_0_r. apply Hcount.
           apply elem_of_app. right. by apply list_elem_of_further.
        -- intros Heq. apply NoDup_app in Hnd as (_ & _ & Hnd).
           apply NoDup_cons in Hnd as [Hno _]. apply Hno.
           rewrite Hr0, Heq. apply list_elem_of_fmap. by exists r.
    + intros g.
      rewrite (elem_of_app (Cmd.group <$> seen) [Cmd.group c]).
      rewrite list_elem_of_singleton, <- Hlabels. split; [tauto |].
      intros [Hg | ->]; [done |].
      rewrite <- Hr0, elem_of_app, elem_of_cons. tauto.
    + rewrite !sum_list_with_app. simpl. lia.
  - apply list_find_None in Hfind. rewrite Forall_forall in Hfind.
    assert (Hnew : Cmd.group c ∉ group <$> acc).
    { intros Hin. apply list_elem_of_fmap in Hin as (r & Hg & Hr).
      by apply (Hfind r Hr). }
    rewrite !fmap_app. simpl. split; [| split; [| split]].
    + apply NoDup_app. repeat split; [done | | apply NoDup_singleton].
      intros g Hg Hin. apply list_elem_of_singleton in Hin. by subst g.
    + intros r Hr. rewrite filter_app, length_app.
      apply elem_of_app in Hr as [Hr | Hr].
      * rewrite filter_cons_False, filter_nil.
        -- simpl. rewrite Nat.add_0_r. by apply Hcount.
        -- intros Heq. apply Hnew. rewrite Heq.
           apply list_elem_of_fmap. by exists r.
      * apply list_elem_of_singleton in Hr as ->. simpl.
        rewrite filter_cons_True by done. rewrite filter_nil.
        rewrite filter_group_none; [done |].
        apply Forall_forall. intros d Hd Heq. apply Hnew, Hlabels.
        rewrite <- Heq. apply list_elem_of_fmap. by exists d.
    + intros g. rewrite !elem_of_app, !list_elem_of_singleton.
      by rewrite Hlabels.
    + rewrite sum_list_with_app. simpl. lia.
Qed.

Lemma foldl_groupStep_counts (commands : list Command)
    (acc : list GroupCount) (seen : list Command) :
  NoDup (group <$> acc) →
  (∀ r, r ∈ acc →
        count r = length (filter (λ d, Cmd.group d = group r) seen)) →
  (∀ g, g ∈ group <$> acc ↔ g ∈ Cmd.group <$> seen) →
  NoDup (group <$> foldl groupStep acc commands) ∧
  (∀ r, r ∈ foldl groupStep acc commands →
        count r =
          length (filter (λ d, Cmd.group d = group r) (seen ++ commands))) ∧
  (∀ g, g ∈ group <$> foldl groupStep acc commands ↔
        g ∈ Cmd.group <$> (seen ++ commands)) ∧
  sum_list_with count (foldl groupStep acc commands) =
    (sum_list_with count acc + length commands)%nat.
Proof.
  revert acc seen. induction commands as [|c commands IH];
    intros acc seen Hnd Hcount Hlabels; simpl.
  - rewrite app_nil_r. split; [done |]. split; [done |].
    split; [done | lia].
  - destruct (groupStep_counts acc seen c Hnd Hcount Hlabels)
      as (Hnd' & Hcount' & Hlabels' & Hsum).
    destruct (IH (groupStep acc c) (seen ++ [c]) Hnd' Hcount' Hlabels')
      as (H1 & H2 & H3 & H4).
    rewrite <- app_assoc in H2, H3. simpl in H2, H3.
    split; [done |]. split; [done |]. split; [done | lia].
Qed.

(** X22. For any list of commands, sorted or not, [grouped] has one
    pair per group that occurs in the list, with the number of commands
    of the group as its count; the counts add up to the length of the
    list. *)
Theorem grouped_counts (commands : list Command) :
  NoDup (group <$> grouped commands) ∧
  (∀ g, g ∈ group <$> grouped commands ↔ g ∈ Cmd.group <$> commands) ∧
  (∀ r, r ∈ grouped commands →
        count r = length (filter (λ c, Cmd.group c = group r) commands)) ∧
  sum_list_with count (grouped commands) = length commands.
Proof.
  destruct (foldl_groupStep_counts commands [] [])
    as (Hnd & Hcount & Hlabels & Hsum).
  - constructor.
  - by intros r ?%elem_of_nil.
  - done.
  - split; [done |]. split; [done |]. split; [done |]. exact Hsum.
Qed.

End GroupingMore.
